(** * TBTK: device pool, eigenvalue access and the self-energy vertex

    A shallow embedding of three pieces of TBTK and the properties the
    specification states about them:

    - [GPUResourceManager] (TBTK/calc/TightBindingLib/src/GPUResourceManager.cpp):
      the process-wide pool of compute devices with its busy flags;
    - [PropertyExtractor] (Lib/include/TBTK/PropertyExtractor/Diagonalizer.h):
      the inline eigenvalue accessor;
    - [Vertex] (Lib/src/Solver/ElectronFluctuationVertex.cpp): the
      self-energy vertex contraction;
    - [Quantity] (Lib/src/Quantity/Energy.cpp): the names of the energy
      units;
    - [RayTracer] (Lib/include/Utilities/RayTracer/RayTracer.h): the lock
      of the interactive event handler;
    - [BasicDiagonalization] (Templates/BasicDiagonalization/src/main.cpp):
      the loops that set up the lattice model.

    C++ [int] values are integers [Z]; the loops below never leave the
    range of [int], so no wrap-around occurs in them.  Where the source
    computes with [unsigned int] the wrap-around is written out. *)

From Stdlib Require Import ZArith NArith List Lia Bool Permutation PrimFloat.
From stdpp Require Import base list strings gmap.
Import ListNotations.

Set Default Proof Using "Type".
Local Open Scope Z_scope.

(** ** Outcomes of a call

    TBTK reports contract violations through the macros [TBTKAssert] and
    [TBTKExit], which print a diagnostic and end the process.  *)

(** Modelled from the spec: TBTKMacros.h is not among the sources.  The
    spec describes both macros as "abort with a diagnostic identifying the
    offending call and value"; the diagnostics below carry the values the
    messages in the source print. *)
Inductive Diagnostic : Type :=
| NoDevices                                   (* "No GPU devices available on this machine." *)
| UnknownEnergyType                           (* "Unknow EnergyType." *)
| ComponentCount (supplied : nat)             (* "... but 'supplied' components supplied." *)
| SubindexCount (component subindices : nat)  (* "... component 'n+1' has 'size' subindices." *)
| StateOutOfRange (state : Z).

Inductive Outcome (A : Type) : Type :=
| Returns (a : A)           (* the call returns [a] *)
| Exits (d : Diagnostic)    (* diagnostic printed, process ended *)
| Undefined                 (* an array is accessed outside its bounds *)
| Spinning.                 (* the polling loop has not finished yet *)
Arguments Returns {A} a.
Arguments Exits {A} d.
Arguments Undefined {A}.
Arguments Spinning {A}.

Definition bind {A B : Type} (o : Outcome A) (k : A -> Outcome B) : Outcome B :=
  match o with
  | Returns a => k a
  | Exits d => Exits d
  | Undefined => Undefined
  | Spinning => Spinning
  end.

#[global] Instance Outcome_bind : MBind Outcome :=
  fun A B k o => bind o k.

(** Exposes the [bind] behind the monadic notation. *)
Ltac unfold_bind := unfold mbind, Outcome_bind.

(** [TBTKAssert(expression, function, message, hint)]. *)
Definition TBTKAssert (expression : bool) (message : Diagnostic) : Outcome unit :=
  if expression then Returns tt else Exits message.

(** [TBTKExit(function, message, hint)]. *)
Definition TBTKExit {A : Type} (message : Diagnostic) : Outcome A := Exits message.

Definition failed {A : Type} (o : Outcome A) : Prop :=
  exists d, o = Exits d.

(** ** The device pool *)

Module GPUResourceManager.

(** The static members [numDevices] and [busyDevices]; the lock
    [busyDevicesLock] serialises the critical sections and carries no
    data. *)
Record Pool : Type := {
  numDevices : Z;
  busyDevices : list bool
}.

(** Modelled from the spec: createDeviceTable() is defined outside the
    sources.  The spec has the device count probed once and the busy-flag
    array sized to it, with every device free; a failed probe leaves the
    count at zero. *)
Definition createDeviceTable (probed : Z) : Pool :=
  {| numDevices := probed; busyDevices := replicate (Z.to_nat probed) false |}.

(** The busy-flag array has one flag per device. *)
Definition wellSized (p : Pool) : Prop :=
  numDevices p = Z.of_nat (length (busyDevices p)).

(** What one lock-held pass over the flags finds. *)
Inductive Scan : Type :=
| Found (device : Z) (busy : list bool)
| NoneFree
| OutOfBounds.

(** [for(int n = 0; n < numDevices; n++) if(!busyDevices[n]){ device = n;
    busyDevices[n] = true; done = true; break; }] with [remaining] the
    number of iterations left, [numDevices - n]. *)
Fixpoint scanFrom (remaining : nat) (n : Z) (busy : list bool) : Scan :=
  match remaining with
  | O => NoneFree
  | S remaining' =>
      match busy !! Z.to_nat n with
      | None => OutOfBounds
      | Some false => Found n (<[Z.to_nat n := true]> busy)
      | Some true => scanFrom remaining' (n + 1) busy
      end
  end.

(** The critical section of [allocateDevice], between [omp_set_lock] and
    [omp_unset_lock]. *)
Definition lockedScan (p : Pool) : Scan :=
  scanFrom (Z.to_nat (numDevices p)) 0 (busyDevices p).

Definition withFlags (p : Pool) (busy : list bool) : Pool :=
  {| numDevices := numDevices p; busyDevices := busy |}.

(** [while(!done){ ... }]: no other thread runs in this sequential reading,
    so [fuel] bounds the number of polls. *)
Fixpoint poll (fuel : nat) (p : Pool) : Outcome (Z * Pool) :=
  match fuel with
  | O => Spinning
  | S fuel' =>
      match lockedScan p with
      | Found device busy => Returns (device, withFlags p busy)
      | NoneFree => poll fuel' p
      | OutOfBounds => Undefined
      end
  end.

Definition allocateDevice (fuel : nat) (p : Pool) : Outcome (Z * Pool) :=
  TBTKAssert (numDevices p >? 0) NoDevices ;;
  poll fuel p.

(** [busyDevices[device] = false] under the lock.  The source does not
    check [device]; a write outside the array has no defined result. *)
Definition freeDevice (device : Z) (p : Pool) : Outcome Pool :=
  if (0 <=? device) && (device <? Z.of_nat (length (busyDevices p)))
  then Returns (withFlags p (<[Z.to_nat device := false]> (busyDevices p)))
  else Undefined.

(** *** Callers sharing the pool

    The lock makes each critical section atomic, so an execution with
    several callers is an interleaving of critical sections.  [leases]
    records which caller holds which device between the return of its
    [allocateDevice] and its [freeDevice]. *)
Record System : Type := {
  pool : Pool;
  leases : list (nat * Z)
}.

Inductive Event : Type :=
| Allocated (caller : nat) (device : Z)
| Polled (caller : nat)
| Freed (caller : nat) (device : Z).

Definition release (caller : nat) (device : Z) (held : list (nat * Z)) : list (nat * Z) :=
  List.filter (fun l => negb ((fst l =? caller)%nat && (snd l =? device))) held.

Inductive step : System -> Event -> System -> Prop :=
| step_allocated caller device busy s :
    numDevices (pool s) > 0 ->
    lockedScan (pool s) = Found device busy ->
    step s (Allocated caller device)
      {| pool := withFlags (pool s) busy; leases := (caller, device) :: leases s |}
| step_polled caller s :
    numDevices (pool s) > 0 ->
    lockedScan (pool s) = NoneFree ->
    step s (Polled caller) s
| step_freed caller device p' s :
    In (caller, device) (leases s) ->
    freeDevice device (pool s) = Returns p' ->
    step s (Freed caller device)
      {| pool := p'; leases := release caller device (leases s) |}.

Inductive run : System -> list Event -> System -> Prop :=
| run_nil s : run s [] s
| run_step s e s' es s'' : run s es s' -> step s' e s'' -> run s (es ++ [e]) s''.

Definition initial (probed : Z) : System :=
  {| pool := createDeviceTable probed; leases := [] |}.

Definition allocatedIn (es : list Event) : list Z :=
  flat_map (fun e => match e with Allocated _ d => [d] | _ => [] end) es.

Definition countBusy (busy : list bool) : nat :=
  length (List.filter (fun b => b) busy).

Definition freesIn (es : list Event) : nat :=
  length (List.filter (fun e => match e with Freed _ _ => true | _ => false end) es).

(** What holds of the pool and the leases in every reachable state: one
    flag per device, no device held twice, every held device in range and
    busy, and as many busy flags as leases. *)
Record consistent (s : System) : Prop := {
  consistent_size : wellSized (pool s);
  consistent_holders : List.NoDup (map snd (leases s));
  consistent_busy : forall caller device,
    In (caller, device) (leases s) ->
    0 <= device < numDevices (pool s) /\
    busyDevices (pool s) !! Z.to_nat device = Some true;
  consistent_count : countBusy (busyDevices (pool s)) = length (leases s)
}.

(** The interleavings the code itself admits: [freeDevice] takes any id
    from any caller and checks neither, so a free needs no lease.  A
    caller's lease still ends only with its own [freeDevice]. *)
Inductive stepUnchecked : System -> Event -> System -> Prop :=
| unchecked_allocated caller device busy s :
    numDevices (pool s) > 0 ->
    lockedScan (pool s) = Found device busy ->
    stepUnchecked s (Allocated caller device)
      {| pool := withFlags (pool s) busy; leases := (caller, device) :: leases s |}
| unchecked_polled caller s :
    numDevices (pool s) > 0 ->
    lockedScan (pool s) = NoneFree ->
    stepUnchecked s (Polled caller) s
| unchecked_freed caller device p' s :
    freeDevice device (pool s) = Returns p' ->
    stepUnchecked s (Freed caller device)
      {| pool := p'; leases := release caller device (leases s) |}.

Inductive runUnchecked : System -> list Event -> System -> Prop :=
| unchecked_nil s : runUnchecked s [] s
| unchecked_step s e s' es s'' :
    runUnchecked s es s' -> stepUnchecked s' e s'' -> runUnchecked s (es ++ [e]) s''.

End GPUResourceManager.

(** ** Eigenvalue access *)

Module Solver.

(** Modelled from the spec: Solver/Diagonalizer.h is not among the
    sources.  The spec's eigenstate store holds the eigenvalues
    [E[0..N)] in ascending order and answers [eigenvalue(state)], which
    fails if [state] is outside [[0,N)]. *)
Record Diagonalizer : Type := {
  eigenValues : list float
}.

(** Modelled from the spec: [eigenvalue(state)] of the eigenstate store,
    which indexes the sequence directly and fails if [state] is outside
    [[0,N)]. *)
Definition getEigenValue (solver : Diagonalizer) (state : Z) : Outcome float :=
  if state <? 0 then Exits (StateOutOfRange state)
  else match eigenValues solver !! Z.to_nat state with
       | Some e => Returns e
       | None => Exits (StateOutOfRange state)
       end.

End Solver.

Module PropertyExtractor.

(** The member [dSolver] of PropertyExtractor::Diagonalizer, a pointer to
    the solver the extractor was constructed with. *)
Record Diagonalizer : Type := {
  dSolver : Solver.Diagonalizer
}.

(** [return dSolver->getEigenValue(state);] *)
Definition getEigenValue (extractor : Diagonalizer) (state : Z) : Outcome float :=
  Solver.getEigenValue (dSolver extractor) state.

End PropertyExtractor.

(** ** The self-energy vertex *)

Module Vertex.

(** The arithmetic of [std::complex<double>] and [double] that the
    contraction uses.  The algorithm is written once over this interface;
    [binary64] below is the arithmetic the compiled code runs, [gaussian]
    an exact one. *)
Class Arithmetic : Type := {
  complex : Type;
  real : Type;
  czero : complex;                          (* the [0.] pushed into the result *)
  cadd : complex -> complex -> complex;     (* [+=] *)
  cmul : complex -> complex -> complex;     (* complex [*] complex *)
  cscale : complex -> real -> complex;      (* complex [*] double *)
  negligible : complex -> bool              (* [abs(z) < 1e-10] *)
}.

(** Modelled from the spec: Index.h is not among the sources.  The spec
    has an Index as "an ordered sequence of integer subindices of variable
    length", wildcard and other markers being sentinel integers. *)
Definition Index : Type := list Z.

(** Modelled from the spec: [EnergyResolvedProperty<...>::EnergyType] is
    declared outside the sources.  The spec names the real-axis, the
    fermionic and the bosonic Matsubara representation; the source
    handles [Real] and [BosonicMatsubara] and sends every other value to
    the [default] branch. *)
Inductive EnergyType : Type :=
| Real
| FermionicMatsubara
| BosonicMatsubara.

Section Algorithm.

Context {arithmetic : Arithmetic}.

(** [Index::split()], which cuts a compound Index into its component
    Indices; Index.h is not among the sources, so the function is a
    parameter of the development. *)
Variable split : Index -> list Index.

(** Modelled from the spec: InteractionAmplitude.h is not among the
    sources.  The spec describes an interaction amplitude as two
    creation-operator subindices, two annihilation-operator subindices and
    a complex coupling amplitude; [creation0] is what the source reads as
    [getCreationOperatorIndex(0).at(0)], and so on. *)
Record InteractionAmplitude : Type := {
  getAmplitude : complex;
  creation0 : Z;
  creation1 : Z;
  annihilation0 : Z;
  annihilation1 : Z
}.

(** Modelled from the spec: Property/Susceptibility.h is not among the
    sources.  The algorithm uses the energy type, the two energy counts,
    the data vector (read with the unchecked [operator[]], given here as
    the value stored at each position) and [getOffset], applied to the
    compound Index built from the listed components. *)
Record Susceptibility : Type := {
  getEnergyType : EnergyType;
  getResolution : nat;
  getNumMatsubaraEnergies : nat;
  getData : N -> complex;
  getOffset : list Index -> N
}.

(** The members of Solver::ElectronFluctuationVertex that the vertex
    calculation reads. *)
Record ElectronFluctuationVertex : Type := {
  susceptibility : Susceptibility;
  leftInteraction : list InteractionAmplitude;
  rightInteraction : list InteractionAmplitude;
  multiplier : real
}.

(** [unsigned int] addition. *)
Definition uadd (a b : N) : N := ((a + b) mod 2 ^ 32)%N.

(** [intraBlockIndices[k][0]]. *)
Definition subindex (intraBlockIndices : list Index) (k : nat) : Z :=
  nth 0 (nth k intraBlockIndices []) 0.

(** The four asserts on the sizes of the last components:
    [for(unsigned int n = 0; n < 4; n++) TBTKAssert(intraBlockIndices[n].getSize() == 1, ...)]. *)
Fixpoint checkBlocks (n : nat) (intraBlockIndices : list Index) : Outcome unit :=
  match intraBlockIndices with
  | [] => Returns tt
  | block :: rest =>
      TBTKAssert (length block =? 1)%nat (SubindexCount (n + 1) (length block)) ;;
      checkBlocks (S n) rest
  end.

(** The [continue] conditions of the two loops. *)
Definition skipsIncoming (intraBlockIndices : list Index) (u : InteractionAmplitude) : bool :=
  negb (annihilation1 u =? subindex intraBlockIndices 3)
  || negb (creation0 u =? subindex intraBlockIndices 2)
  || negligible (getAmplitude u).

Definition skipsOutgoing (intraBlockIndices : list Index) (u : InteractionAmplitude) : bool :=
  negb (annihilation0 u =? subindex intraBlockIndices 0)
  || negb (creation1 u =? subindex intraBlockIndices 1)
  || negligible (getAmplitude u).

(** What one pair adds at energy [n]:
    [amplitude_i*amplitude_o*susceptibilityData[offsetChargeSusceptibility + n]*multiplier]. *)
Definition contribution (chi : Susceptibility) (multiplier : real) (kIndex : Index)
    (incoming outgoing : InteractionAmplitude) : N -> complex :=
  let offsetChargeSusceptibility :=
    getOffset chi [kIndex;
                   [creation0 outgoing];
                   [annihilation1 outgoing];
                   [creation1 incoming];
                   [annihilation0 incoming]] in
  fun n =>
    cscale
      (cmul (cmul (getAmplitude incoming) (getAmplitude outgoing))
            (getData chi (uadd offsetChargeSusceptibility n)))
      multiplier.

(** [for(n = 0; n < selfEnergyVertex.size(); n++) selfEnergyVertex.at(n) += term(n)],
    running from position [n] on. *)
Fixpoint accumulate (n : N) (selfEnergyVertex : list complex) (term : N -> complex)
    : list complex :=
  match selfEnergyVertex with
  | [] => []
  | z :: rest => cadd z (term n) :: accumulate (N.succ n) rest term
  end.

(** The loop over [uRight] for one incoming amplitude. *)
Definition outgoingLoop (chi : Susceptibility) (multiplier : real) (kIndex : Index)
    (intraBlockIndices : list Index) (incoming : InteractionAmplitude)
    (selfEnergyVertex : list complex) (uRight : list InteractionAmplitude) : list complex :=
  fold_left
    (fun vertex outgoing =>
       if skipsOutgoing intraBlockIndices outgoing then vertex
       else accumulate 0%N vertex (contribution chi multiplier kIndex incoming outgoing))
    uRight selfEnergyVertex.

(** The loop over [uLeft]. *)
Definition incomingLoop (chi : Susceptibility) (multiplier : real) (kIndex : Index)
    (intraBlockIndices : list Index)
    (selfEnergyVertex : list complex) (uLeft uRight : list InteractionAmplitude)
    : list complex :=
  fold_left
    (fun vertex incoming =>
       if skipsIncoming intraBlockIndices incoming then vertex
       else outgoingLoop chi multiplier kIndex intraBlockIndices incoming vertex uRight)
    uLeft selfEnergyVertex.

Definition kIndexOf (components : list Index) : Index := nth 0 components [].

Definition intraBlockIndicesOf (components : list Index) : list Index :=
  [nth 1 components []; nth 2 components []; nth 3 components []; nth 4 components []].

Definition calculateSelfEnergyVertexMainAlgorithm
    (selfEnergyVertex : list complex) (index : Index) (chi : Susceptibility)
    (uLeft uRight : list InteractionAmplitude) (multiplier : real)
    : Outcome (list complex) :=
  let components := split index in
  TBTKAssert (length components =? 5)%nat (ComponentCount (length components)) ;;
  let kIndex := kIndexOf components in
  let intraBlockIndices := intraBlockIndicesOf components in
  checkBlocks 0 intraBlockIndices ;;
  Returns (incomingLoop chi multiplier kIndex intraBlockIndices selfEnergyVertex uLeft uRight).

(** [for(n = 0; n < numEnergies; n++) selfEnergyVertex.push_back(0.)]. *)
Definition zeroVertex (numEnergies : nat) : list complex :=
  Nat.iter numEnergies (fun vertex => vertex ++ [czero]) [].

Definition calculateSelfEnergyVertex (solver : ElectronFluctuationVertex) (index : Index)
    : Outcome (list complex) :=
  numEnergies ←
    match getEnergyType (susceptibility solver) with
    | Real => Returns (getResolution (susceptibility solver))
    | BosonicMatsubara => Returns (getNumMatsubaraEnergies (susceptibility solver))
    | _ => TBTKExit UnknownEnergyType
    end;
  calculateSelfEnergyVertexMainAlgorithm
    (zeroVertex numEnergies) index (susceptibility solver)
    (leftInteraction solver) (rightInteraction solver) (multiplier solver).

(** *** The properties in the specification's words *)

(** The index "splits into exactly 5 components (momentum/block + 4
    single-subindex blocks)". *)
Definition single (block : Index) : bool := (length block =? 1)%nat.

Definition wellShaped (components : list Index) : bool :=
  (length components =? 5)%nat && forallb single (skipn 1 components).

(** An arity diagnostic. *)
Definition arityMismatch (d : Diagnostic) : Prop :=
  match d with
  | ComponentCount _ | SubindexCount _ _ => True
  | _ => False
  end.

(** The amplitude lists "with all such amplitudes removed". *)
Definition significant (u : InteractionAmplitude) : bool :=
  negb (negligible (getAmplitude u)).

(** The terms the two loops add, in the order they add them. *)
Definition contributions (chi : Susceptibility) (multiplier : real) (kIndex : Index)
    (intraBlockIndices : list Index) (uLeft uRight : list InteractionAmplitude)
    : list (N -> complex) :=
  flat_map
    (fun incoming =>
       map (contribution chi multiplier kIndex incoming)
           (List.filter (fun u => negb (skipsOutgoing intraBlockIndices u)) uRight))
    (List.filter (fun u => negb (skipsIncoming intraBlockIndices u)) uLeft).

(** The components of the compound Index whose offset the loops look up
    for a pair of amplitudes:
    [{kIndex, {c0_o}, {a1_o}, {c1_i}, {a0_i}}]. *)
Definition pairComponents (kIndex : Index) (incoming outgoing : InteractionAmplitude)
    : list Index :=
  [kIndex;
   [creation0 outgoing];
   [annihilation1 outgoing];
   [creation1 incoming];
   [annihilation0 incoming]].

(** The two susceptibilities agree on what the loops look up for one
    pair: the offset of the pair's compound Index and the [size] data
    entries from there. *)
Definition sameWindow (chi chi' : Susceptibility) (kIndex : Index) (size : nat)
    (incoming outgoing : InteractionAmplitude) : Prop :=
  getOffset chi (pairComponents kIndex incoming outgoing)
  = getOffset chi' (pairComponents kIndex incoming outgoing) /\
  forall n, (n < size)%nat ->
    getData chi (uadd (getOffset chi (pairComponents kIndex incoming outgoing))
                      (N.of_nat n))
    = getData chi' (uadd (getOffset chi (pairComponents kIndex incoming outgoing))
                         (N.of_nat n)).

(** The two leg conditions of the loops, without the magnitude test. *)
Definition matchesIncoming (intraBlockIndices : list Index) (u : InteractionAmplitude) : bool :=
  (annihilation1 u =? subindex intraBlockIndices 3)
  && (creation0 u =? subindex intraBlockIndices 2).

Definition matchesOutgoing (intraBlockIndices : list Index) (u : InteractionAmplitude) : bool :=
  (annihilation0 u =? subindex intraBlockIndices 0)
  && (creation1 u =? subindex intraBlockIndices 1).

End Algorithm.

(** *** IEEE 754 binary64 arithmetic

    [std::complex<double>] as a pair of doubles.  The product is the
    textbook formula, which is what the library computes as long as no
    intermediate product overflows (the library then recovers infinities);
    [abs] is the square root of the sum of squares, where the library calls
    [hypot], which avoids intermediate overflow and can round the last
    digit differently, so the two tests can differ for a magnitude within
    one rounding of the cutoff.  The theorems about the algorithm hold for
    every [Arithmetic] and depend on neither; the evaluations below use
    amplitudes far from both cases. *)
Definition cutoff : float := 0x1.b7cdfd9d7bdbbp-34%float.   (* the double nearest 1e-10 *)

Definition binary64 : Arithmetic := {|
  complex := float * float;
  real := float;
  czero := (0, 0)%float;
  cadd := fun x y => (fst x + fst y, snd x + snd y)%float;
  cmul := fun x y =>
    (fst x * fst y - snd x * snd y, fst x * snd y + snd x * fst y)%float;
  cscale := fun x r => (fst x * r, snd x * r)%float;
  negligible := fun x =>
    PrimFloat.ltb (PrimFloat.sqrt (fst x * fst x + snd x * snd x)) cutoff
|}.

(** *** Exact arithmetic on the Gaussian integers

    No non-zero Gaussian integer has magnitude below [1e-10]. *)
Definition gaussian : Arithmetic := {|
  complex := Z * Z;
  real := Z;
  czero := (0, 0);
  cadd := fun x y => (fst x + fst y, snd x + snd y);
  cmul := fun x y => (fst x * fst y - snd x * snd y, fst x * snd y + snd x * fst y);
  cscale := fun x r => (fst x * r, snd x * r);
  negligible := fun x => (fst x =? 0) && (snd x =? 0)
|}.

(** *** A concrete Index encoding

    Compound Indices written with a separator subindex between the
    components; used for the examples. *)
Definition separator : Z := -1.

Fixpoint splitAtSeparator (index : Index) : list Index :=
  match index with
  | [] => [[]]
  | s :: rest =>
      if s =? separator then [] :: splitAtSeparator rest
      else match splitAtSeparator rest with
           | [] => [[s]]
           | component :: components => (s :: component) :: components
           end
  end.

End Vertex.

(** ** Energy units *)

Module Quantity.

(** [Energy::Unit].  The enum is declared in Energy.h, outside the
    sources; its enumerators are the ones the two tables and the switch of
    Energy.cpp name. *)
Inductive Unit : Type := GeV | MeV | keV | eV | meV | ueV | J.

#[global] Instance Unit_eq_dec : EqDecision Unit.
Proof. solve_decision. Defined.

Definition unitCode (unit : Unit) : nat :=
  match unit with
  | GeV => 0 | MeV => 1 | keV => 2 | eV => 3 | meV => 4 | ueV => 5 | J => 6
  end%nat.

Definition codeUnit (code : nat) : option Unit :=
  match code with
  | 0 => Some GeV | 1 => Some MeV | 2 => Some keV | 3 => Some eV
  | 4 => Some meV | 5 => Some ueV | 6 => Some J | _ => None
  end%nat.

#[global] Instance Unit_countable : Countable Unit.
Proof. apply (inj_countable unitCode codeUnit). intros []; reflexivity. Defined.

(** [map<Energy::Unit, string> Energy::unitToString]. *)
Definition unitToString : gmap Unit string :=
  list_to_map
    [(GeV, "GeV"); (MeV, "MeV"); (keV, "keV"); (eV, "eV");
     (meV, "meV"); (ueV, "ueV"); (J, "J")]%string.

(** [map<string, Energy::Unit> Energy::stringToUnit]. *)
Definition stringToUnit : gmap string Unit :=
  list_to_map
    [("GeV", GeV); ("MeV", MeV); ("keV", keV); ("eV", eV);
     ("meV", meV); ("ueV", ueV); ("J", J)]%string.

(** What the two [TBTKExit] calls report: the unit, printed as its
    integer value, or the string. *)
Inductive UnitDiagnostic : Type :=
| UnknownUnit (unit : Unit)
| UnknownUnitString (str : string).

Inductive Answer (A : Type) : Type :=
| Value (a : A)
| Exited (d : UnitDiagnostic).
Arguments Value {A} a.
Arguments Exited {A} d.

(** [try{ return unitToString.at(unit); } catch(std::out_of_range e){ TBTKExit(...) }]. *)
Definition getUnitString (unit : Unit) : Answer string :=
  match unitToString !! unit with
  | Some str => Value str
  | None => Exited (UnknownUnit unit)
  end.

(** [try{ return stringToUnit.at(str); } catch(std::out_of_range e){ TBTKExit(...) }]. *)
Definition getUnit (str : string) : Answer Unit :=
  match stringToUnit !! str with
  | Some unit => Value unit
  | None => Exited (UnknownUnitString str)
  end.

Definition unitStrings : list string :=
  ["GeV"; "MeV"; "keV"; "eV"; "meV"; "ueV"; "J"]%string.

End Quantity.

(** ** The event handler of the ray tracer *)

Module RayTracer.

Section EventHandler.

(** What a non-empty [std::function] with the signature of the mouse
    callback holds. *)
Variable Callback : Type.

(** The static members [isLocked], [owner] and [lambdaOnMouseChange] of
    RayTracer::EventHandler.  A [RayTracer*] is an address, [None] the
    null pointer; an empty [std::function] is [None]. *)
Record EventHandler : Type := {
  isLocked : bool;
  owner : option nat;
  lambdaOnMouseChange : option Callback
}.

(** [EventHandler::lock(owner, lambdaOnMouseChange)]: the returned flag
    and the members afterwards. *)
Definition lock (newOwner : option nat) (lambda : option Callback) (h : EventHandler)
    : bool * EventHandler :=
  if isLocked h then (false, h)
  else (true, {| isLocked := true; owner := newOwner; lambdaOnMouseChange := lambda |}).

(** [EventHandler::unlock(owner)]. *)
Definition unlock (caller : option nat) (h : EventHandler) : bool * EventHandler :=
  if decide (owner h = caller)
  then (true, {| isLocked := false; owner := None; lambdaOnMouseChange := None |})
  else (false, h).

(** What [onMouseChange] does: it calls the stored function with its
    arguments, or ends the process with "lambdaOnMouseChange is nullptr." *)
Inductive MouseOutcome : Type :=
| Invoked (lambda : Callback) (event x y flags userData : Z)
| ExitsNullLambda.

Definition onMouseChange (event x y flags userData : Z) (h : EventHandler) : MouseOutcome :=
  match lambdaOnMouseChange h with
  | Some lambda => Invoked lambda event x y flags userData
  | None => ExitsNullLambda
  end.

(** A sequence of calls to [lock] and [unlock], with the flags they
    return. *)
Inductive Call : Type :=
| Lock (newOwner : option nat) (lambda : option Callback)
| Unlock (caller : option nat).

Definition call (c : Call) (h : EventHandler) : bool * EventHandler :=
  match c with
  | Lock newOwner lambda => lock newOwner lambda h
  | Unlock caller => unlock caller h
  end.

Fixpoint calls (cs : list Call) (h : EventHandler) : list bool * EventHandler :=
  match cs with
  | [] => ([], h)
  | c :: rest =>
      let (flag, h') := call c h in
      let (flags, h'') := calls rest h' in
      (flag :: flags, h'')
  end.

(** An unlocked handler has neither owner nor callback. *)
Definition released (h : EventHandler) : Prop :=
  isLocked h = false -> owner h = None /\ lambdaOnMouseChange h = None.

End EventHandler.

Arguments isLocked {Callback} _.
Arguments owner {Callback} _.
Arguments lambdaOnMouseChange {Callback} _.
Arguments lock {Callback} newOwner lambda h.
Arguments unlock {Callback} caller h.
Arguments onMouseChange {Callback} event x y flags userData h.
Arguments Invoked {Callback} lambda event x y flags userData.
Arguments ExitsNullLambda {Callback}.
Arguments Lock {Callback} newOwner lambda.
Arguments Unlock {Callback} caller.
Arguments call {Callback} c h.
Arguments calls {Callback} cs h.
Arguments released {Callback} h.

End RayTracer.

(** ** The lattice of the basic diagonalization template *)

Module BasicDiagonalization.

(** The calls [main] makes on the Model while it sets it up.  The Model
    and HoppingAmplitude classes lie outside the sources; a call is
    recorded with the three arguments of the HoppingAmplitude it passes:
    the amplitude and the two Indices, in the order of the source. *)
Inductive ModelCall : Type :=
| addHA (amplitude : float * float) (first second : list Z)
| addHAAndHC (amplitude : float * float) (first second : list Z).

(** [complex<double> mu = -1.0] and [complex<double> t = 1.0]. *)
Definition mu : float * float := (-1, 0)%float.
Definition t : float * float := (1, 0)%float.

(** Unary minus of [complex<double>]. *)
Definition cneg (z : float * float) : float * float := (- fst z, - snd z)%float.

(** The values a loop counter [for(int n = 0; n < bound; n++)] takes. *)
Definition counter (bound : Z) : list Z := map Z.of_nat (seq 0 (Z.to_nat bound)).

(** The body of the innermost loop, with C++'s truncating [%]. *)
Definition siteCalls (SIZE_X SIZE_Y x y s : Z) : list ModelCall :=
  [addHA (cneg mu) [x; y; s] [x; y; s]]
  ++ (if x + 1 <? SIZE_X
      then [addHAAndHC (cneg t) [Z.rem (x + 1) SIZE_X; y; s] [x; y; s]] else [])
  ++ (if y + 1 <? SIZE_Y
      then [addHAAndHC (cneg t) [x; Z.rem (y + 1) SIZE_Y; s] [x; y; s]] else []).

(** The three nested loops over [x], [y] and [s]. *)
Definition modelCalls (SIZE_X SIZE_Y : Z) : list ModelCall :=
  flat_map
    (fun x =>
       flat_map
         (fun y => flat_map (fun s => siteCalls SIZE_X SIZE_Y x y s) (counter 2))
         (counter SIZE_Y))
    (counter SIZE_X).

(** [const int SIZE_X = 20; const int SIZE_Y = 20;] *)
Definition SIZE_X : Z := 20.
Definition SIZE_Y : Z := 20.

Definition mainModelCalls : list ModelCall := modelCalls SIZE_X SIZE_Y.

(** A site of the lattice: [{x, y, s}] inside the bounds. *)
Definition site (sizeX sizeY : Z) (index : list Z) : Prop :=
  exists x y s,
    index = [x; y; s] /\ 0 <= x < sizeX /\ 0 <= y < sizeY /\ 0 <= s < 2.

Definition isAddHA (c : ModelCall) : bool :=
  match c with addHA _ _ _ => true | addHAAndHC _ _ _ => false end.

Definition isAddHAAndHC (c : ModelCall) : bool :=
  match c with addHA _ _ _ => false | addHAAndHC _ _ _ => true end.

End BasicDiagonalization.

(** ** Concrete inputs for the worked examples *)

Module Examples.

Import Vertex.

(** The compound Index with the components [0], [1], [2], [3], [4]. *)
Definition exampleIndex : Index := [0; -1; 1; -1; 2; -1; 3; -1; 4].

Section Exact.

#[local] Existing Instance gaussian.

Definition exactSusceptibility (energyType : EnergyType) : Susceptibility := {|
  getEnergyType := energyType;
  getResolution := 2;
  getNumMatsubaraEnergies := 3;
  getData := fun position => (Z.of_N position + 1, 1);
  getOffset := fun components => N.of_nat (length components)
|}.

Definition exactAmplitude (z : Z * Z) (c0 c1 a0 a1 : Z) : InteractionAmplitude :=
  {| getAmplitude := z; creation0 := c0; creation1 := c1;
     annihilation0 := a0; annihilation1 := a1 |}.

Definition exactLeft : list InteractionAmplitude :=
  [exactAmplitude (2, 1) 3 0 0 4; exactAmplitude (0, 0) 3 0 0 4; exactAmplitude (5, 0) 3 7 8 4].

Definition exactRight : list InteractionAmplitude :=
  [exactAmplitude (1, 1) 9 2 1 9; exactAmplitude (3, 0) 0 2 1 0].

Definition exactSolver (energyType : EnergyType) : ElectronFluctuationVertex := {|
  susceptibility := exactSusceptibility energyType;
  leftInteraction := exactLeft;
  rightInteraction := exactRight;
  multiplier := 2
|}.

(** A susceptibility that places the compound Index [{0, c, a, c', a'}]
    at offset [2 (c + c')] and every other Index at [otherOffset], and
    whose data outside the eight positions read for [exactLeft] and
    [exactRight] are [elsewhere]. *)
Definition pairedSusceptibility (elsewhere : Z * Z) (otherOffset : N) : Susceptibility := {|
  getEnergyType := Real;
  getResolution := 2;
  getNumMatsubaraEnergies := 3;
  getData := fun position =>
    if existsb (N.eqb position) [0; 1; 14; 15; 18; 19; 32; 33]%N
    then (Z.of_N position, 1) else elsewhere;
  getOffset := fun components =>
    match components with
    | [[0]; [c]; [_]; [c']; [_]] => Z.to_N (2 * (c + c'))
    | _ => otherOffset
    end
|}.

End Exact.

Section Binary64.

#[local] Existing Instance binary64.

(** A susceptibility with one real energy whose data are all [1]. *)
Definition doubleSusceptibility : Susceptibility := {|
  getEnergyType := Real;
  getResolution := 1;
  getNumMatsubaraEnergies := 1;
  getData := fun _ => (1, 0)%float;
  getOffset := fun _ => 0%N
|}.

(** An incoming amplitude [re + 0i] whose legs match [exampleIndex]. *)
Definition incomingOf (re : float) : InteractionAmplitude :=
  {| getAmplitude := (re, 0%float); creation0 := 3; creation1 := 0;
     annihilation0 := 0; annihilation1 := 4 |}.

(** The outgoing amplitude [1 + 0i] whose legs match [exampleIndex]. *)
Definition outgoingUnit : InteractionAmplitude :=
  {| getAmplitude := (1, 0)%float; creation0 := 0; creation1 := 2;
     annihilation0 := 1; annihilation1 := 0 |}.

End Binary64.

End Examples.

(** * Properties of the device pool *)

Section DevicePool.

Import GPUResourceManager.

(** *** The code on small pools *)

Example lockedScan_skips_busy :
  lockedScan {| numDevices := 4; busyDevices := [true; true; false; false] |}
  = Found 2 [true; true; true; false].
Proof. reflexivity. Qed.

Example allocateDevice_no_devices :
  allocateDevice 5 (createDeviceTable 0) = Exits NoDevices.
Proof. reflexivity. Qed.

Example allocateDevice_all_busy :
  allocateDevice 5 {| numDevices := 2; busyDevices := [true; true] |} = Spinning.
Proof. reflexivity. Qed.

Example allocateDevice_fresh_pool :
  allocateDevice 1 (createDeviceTable 3)
  = Returns (0, {| numDevices := 3; busyDevices := [true; false; false] |}).
Proof. reflexivity. Qed.

Example freeDevice_then_allocate :
  (p ← freeDevice 1 {| numDevices := 3; busyDevices := [true; true; true] |};
   allocateDevice 1 p)
  = Returns (1, {| numDevices := 3; busyDevices := [true; true; true] |}).
Proof. reflexivity. Qed.

Example freeDevice_outside_the_array :
  freeDevice 3 {| numDevices := 3; busyDevices := [true; true; true] |} = Undefined.
Proof. reflexivity. Qed.

(** *** Facts about the lock-held scan *)

Lemma scanFrom_spec remaining : forall n busy,
  0 <= n ->
  (Z.to_nat n + remaining <= length busy)%nat ->
  match scanFrom remaining n busy with
  | Found d busy' =>
      n <= d < n + Z.of_nat remaining /\
      busy !! Z.to_nat d = Some false /\
      busy' = <[Z.to_nat d := true]> busy /\
      forall m, n <= m < d -> busy !! Z.to_nat m = Some true
  | NoneFree =>
      forall m, n <= m < n + Z.of_nat remaining -> busy !! Z.to_nat m = Some true
  | OutOfBounds => False
  end.
Proof.
  induction remaining as [|k IH]; intros n busy Hn Hlen; simpl.
  - intros m Hm. lia.
  - destruct (busy !! Z.to_nat n) as [[|]|] eqn:Hflag.
    + specialize (IH (n + 1) busy ltac:(lia) ltac:(lia)).
      destruct (scanFrom k (n + 1) busy) as [d busy'| |]; [| |exact IH].
      * destruct IH as (Hd & Hfree & Hset & Hlow).
        repeat split; try lia; try assumption.
        intros m Hm. destruct (Z.eq_dec m n) as [->|Hne]; [assumption|].
        apply Hlow. lia.
      * intros m Hm. destruct (Z.eq_dec m n) as [->|Hne]; [assumption|].
        apply IH. lia.
    + repeat split; try lia; assumption.
    + apply lookup_ge_None in Hflag. lia.
Qed.

Lemma lockedScan_spec p :
  wellSized p ->
  match lockedScan p with
  | Found d busy' =>
      0 <= d < numDevices p /\
      busyDevices p !! Z.to_nat d = Some false /\
      busy' = <[Z.to_nat d := true]> (busyDevices p) /\
      forall m, 0 <= m < d -> busyDevices p !! Z.to_nat m = Some true
  | NoneFree =>
      forall m, 0 <= m < numDevices p -> busyDevices p !! Z.to_nat m = Some true
  | OutOfBounds => False
  end.
Proof.
  intros Hwf. unfold lockedScan.
  pose proof (scanFrom_spec (Z.to_nat (numDevices p)) 0 (busyDevices p)
                ltac:(lia) ltac:(unfold wellSized in Hwf; lia)) as H.
  destruct (scanFrom _ 0 (busyDevices p)) as [d busy'| |]; [| |exact H].
  - destruct H as (Hd & Hfree & Hset & Hlow).
    repeat split; try lia; assumption.
  - intros m Hm. apply H. lia.
Qed.

Lemma lockedScan_finds p m :
  wellSized p ->
  busyDevices p !! m = Some false ->
  exists d busy', lockedScan p = Found d busy'.
Proof.
  intros Hwf Hfree. pose proof (lockedScan_spec p Hwf) as H.
  destruct (lockedScan p) as [d busy'| |]; [eauto| |contradiction].
  apply lookup_lt_Some in Hfree as Hlt.
  specialize (H (Z.of_nat m) ltac:(unfold wellSized in Hwf; lia)).
  rewrite Nat2Z.id in H. congruence.
Qed.

Lemma poll_found fuel p d busy' :
  lockedScan p = Found d busy' ->
  poll (S fuel) p = Returns (d, withFlags p busy').
Proof. intros H. simpl. now rewrite H. Qed.

Lemma wellSized_withFlags p busy :
  wellSized p -> length busy = length (busyDevices p) -> wellSized (withFlags p busy).
Proof. unfold wellSized. simpl. congruence. Qed.

Lemma createDeviceTable_wellSized K : wellSized (createDeviceTable (Z.of_nat K)).
Proof. unfold wellSized. simpl. rewrite length_replicate. lia. Qed.

Lemma poll_never_exits fuel p d : poll fuel p <> Exits d.
Proof.
  induction fuel as [|fuel IH]; simpl; [discriminate|].
  destruct (lockedScan p); [discriminate|exact IH|discriminate].
Qed.

Lemma allocateDevice_positive fuel p :
  numDevices p > 0 -> allocateDevice fuel p = poll fuel p.
Proof.
  intros Hpos. unfold allocateDevice.
  destruct (Z.gtb_spec (numDevices p) 0); [reflexivity|lia].
Qed.

Lemma allocateDevice_empty fuel p :
  numDevices p <= 0 -> allocateDevice fuel p = Exits NoDevices.
Proof.
  intros Hle. unfold allocateDevice.
  destruct (Z.gtb_spec (numDevices p) 0); [lia|reflexivity].
Qed.

Lemma wellSized_free_positive p m :
  wellSized p -> busyDevices p !! m = Some false -> numDevices p > 0.
Proof.
  intros Hwf Hfree. apply lookup_lt_Some in Hfree. unfold wellSized in Hwf. lia.
Qed.

(** C6.  On a pool with one flag per device, [allocateDevice] ends the
    process with the "no devices" diagnostic exactly when the pool size is
    zero, and it fails in no other way; when the size is positive and some
    device is free, it returns an id in [[0, numDevices)] and that device's
    flag is set afterwards. *)
Theorem allocateDevice_fatal_iff_empty_pool (fuel : nat) (p : Pool) :
  wellSized p ->
  (allocateDevice fuel p = Exits NoDevices <-> numDevices p = 0) /\
  (failed (allocateDevice fuel p) <-> numDevices p = 0) /\
  (numDevices p > 0 ->
   (exists m, busyDevices p !! m = Some false) ->
   exists device p',
     allocateDevice (S fuel) p = Returns (device, p') /\
     0 <= device < numDevices p /\
     busyDevices p' !! Z.to_nat device = Some true /\
     numDevices p' = numDevices p).
Proof.
  intros Hwf.
  assert (Hnonneg : 0 <= numDevices p) by (unfold wellSized in Hwf; lia).
  assert (Hexit : forall d, allocateDevice fuel p = Exits d -> numDevices p = 0).
  { intros d Hd. destruct (Z.eq_dec (numDevices p) 0) as [|Hne]; [assumption|].
    rewrite allocateDevice_positive in Hd by lia.
    now apply poll_never_exits in Hd. }
  split; [|split].
  - split; [apply Hexit|].
    intros Hzero. apply allocateDevice_empty. lia.
  - split.
    + intros [d Hd]. now apply Hexit in Hd.
    + intros Hzero. exists NoDevices. apply allocateDevice_empty. lia.
  - intros Hpos [m Hfree].
    destruct (lockedScan_finds p m Hwf Hfree) as (d & busy' & Hscan).
    pose proof (lockedScan_spec p Hwf) as Hspec. rewrite Hscan in Hspec.
    destruct Hspec as (Hd & Hwas & Hset & _).
    exists d, (withFlags p busy'). rewrite allocateDevice_positive by assumption.
    repeat split; try lia.
    + now apply poll_found.
    + simpl. subst busy'. apply list_lookup_insert_eq.
      now apply lookup_lt_Some in Hwas.
Qed.

Lemma allocateDevice_fatal_iff_empty_pool_witness :
  (allocateDevice 1 (createDeviceTable 0) = Exits NoDevices <-> 0 = 0) /\
  exists device p',
    allocateDevice 1 {| numDevices := 2; busyDevices := [true; false] |}
      = Returns (device, p') /\
    0 <= device < 2 /\
    busyDevices p' !! Z.to_nat device = Some true /\
    numDevices p' = 2.
Proof.
  split.
  - exact (proj1 (allocateDevice_fatal_iff_empty_pool 1 (createDeviceTable 0) eq_refl)).
  - refine (proj2 (proj2 (allocateDevice_fatal_iff_empty_pool 0
             {| numDevices := 2; busyDevices := [true; false] |} eq_refl)) _ _).
    + reflexivity.
    + exists 1%nat. reflexivity.
Defined.

(** C10.  Whenever a free device exists, [allocateDevice] returns the
    lowest-numbered free device: the flag of the returned id [n] was clear
    and the flag of every [m < n] was set when the pool was scanned, and
    the only change to the pool is that flag [n] is now set. *)
Theorem allocateDevice_lowest_free (fuel : nat) (p : Pool) :
  wellSized p ->
  (exists m, busyDevices p !! m = Some false) ->
  exists n p',
    allocateDevice (S fuel) p = Returns (n, p') /\
    0 <= n < numDevices p /\
    busyDevices p !! Z.to_nat n = Some false /\
    (forall m, 0 <= m < n -> busyDevices p !! Z.to_nat m = Some true) /\
    p' = withFlags p (<[Z.to_nat n := true]> (busyDevices p)).
Proof.
  intros Hwf [m Hfree].
  destruct (lockedScan_finds p m Hwf Hfree) as (d & busy' & Hscan).
  pose proof (lockedScan_spec p Hwf) as Hspec. rewrite Hscan in Hspec.
  destruct Hspec as (Hd & Hwas & Hset & Hlow).
  exists d, (withFlags p busy').
  rewrite allocateDevice_positive by (eapply wellSized_free_positive; eassumption).
  split; [now apply poll_found|].
  repeat split; try lia; try assumption. now subst busy'.
Qed.

Lemma allocateDevice_lowest_free_witness :
  exists n p',
    allocateDevice 1 {| numDevices := 4; busyDevices := [true; true; false; false] |}
      = Returns (n, p') /\
    0 <= n < 4 /\
    [true; true; false; false] !! Z.to_nat n = Some false /\
    (forall m, 0 <= m < n -> [true; true; false; false] !! Z.to_nat m = Some true) /\
    p' = {| numDevices := 4;
            busyDevices := <[Z.to_nat n := true]> [true; true; false; false] |}.
Proof.
  apply (allocateDevice_lowest_free 0
           {| numDevices := 4; busyDevices := [true; true; false; false] |}).
  - reflexivity.
  - exists 3%nat. reflexivity.
Defined.

(** C8.  For a device id of the pool, [freeDevice] clears that device's
    busy flag and changes nothing else: every other flag, the number of
    flags and [numDevices] are as before. *)
Theorem freeDevice_frame (device : Z) (p : Pool) :
  wellSized p ->
  0 <= device < numDevices p ->
  exists p',
    freeDevice device p = Returns p' /\
    busyDevices p' !! Z.to_nat device = Some false /\
    (forall m, m <> Z.to_nat device -> busyDevices p' !! m = busyDevices p !! m) /\
    length (busyDevices p') = length (busyDevices p) /\
    numDevices p' = numDevices p.
Proof.
  intros Hwf Hrange. unfold wellSized in Hwf.
  exists (withFlags p (<[Z.to_nat device := false]> (busyDevices p))).
  unfold freeDevice.
  replace (0 <=? device) with true by (symmetry; apply Z.leb_le; lia).
  replace (device <? Z.of_nat (length (busyDevices p))) with true
    by (symmetry; apply Z.ltb_lt; lia).
  simpl. repeat split.
  - apply list_lookup_insert_eq. lia.
  - intros m Hm. apply list_lookup_insert_ne. congruence.
  - apply length_insert.
Qed.

Lemma freeDevice_frame_witness :
  exists p',
    freeDevice 1 {| numDevices := 3; busyDevices := [true; true; false] |} = Returns p' /\
    busyDevices p' !! Z.to_nat 1 = Some false /\
    (forall m, m <> Z.to_nat 1 -> busyDevices p' !! m = [true; true; false] !! m) /\
    length (busyDevices p') = 3%nat /\
    numDevices p' = 3.
Proof.
  apply (freeDevice_frame 1 {| numDevices := 3; busyDevices := [true; true; false] |}).
  - reflexivity.
  - simpl. lia.
Defined.

(** *** Callers sharing the pool *)

Lemma countBusy_set busy : forall i,
  busy !! i = Some false ->
  countBusy (<[i := true]> busy) = S (countBusy busy).
Proof.
  unfold countBusy.
  induction busy as [|b busy IH]; intros [|i] H; simpl in *; try discriminate.
  - injection H as ->. reflexivity.
  - destruct b; simpl; now rewrite IH.
Qed.

Lemma countBusy_clear busy : forall i,
  busy !! i = Some true ->
  S (countBusy (<[i := false]> busy)) = countBusy busy.
Proof.
  unfold countBusy.
  induction busy as [|b busy IH]; intros [|i] H; simpl in *; try discriminate.
  - injection H as ->. reflexivity.
  - destruct b; simpl; now rewrite <- (IH i H).
Qed.

Lemma countBusy_full busy :
  (forall i, (i < length busy)%nat -> busy !! i = Some true) ->
  countBusy busy = length busy.
Proof.
  unfold countBusy.
  induction busy as [|b busy IH]; intros Hall; [reflexivity|].
  pose proof (Hall 0%nat ltac:(simpl; lia)) as Hb. simpl in Hb. injection Hb as ->.
  simpl. f_equal. apply IH. intros i Hi. apply (Hall (S i)). simpl. lia.
Qed.

Lemma countBusy_free busy :
  (countBusy busy < length busy)%nat <-> exists i, busy !! i = Some false.
Proof.
  induction busy as [|b busy IH].
  - split; [simpl; lia|]. intros [i Hi]. discriminate.
  - pose proof (List.filter_length_le (fun b => b) busy) as Hle.
    destruct b; unfold countBusy in *; simpl.
    + rewrite <- Nat.succ_lt_mono, IH. split.
      * intros [i Hi]. now exists (S i).
      * intros [[|i] Hi]; [discriminate|]. now exists i.
    + split; [|lia]. intros _. now exists 0%nat.
Qed.

Lemma countBusy_le busy : (countBusy busy <= length busy)%nat.
Proof. unfold countBusy. apply List.filter_length_le. Qed.

Lemma release_In caller device held c d :
  In (c, d) (release caller device held) ->
  In (c, d) held /\ (c, d) <> (caller, device).
Proof.
  unfold release. rewrite List.filter_In. intros [Hin Hkeep]. split; [assumption|].
  intros [= -> ->]. simpl in Hkeep.
  now rewrite Nat.eqb_refl, Z.eqb_refl in Hkeep.
Qed.

Lemma NoDup_snd_unique (held : list (nat * Z)) c c' d :
  List.NoDup (map snd held) -> In (c, d) held -> In (c', d) held -> c = c'.
Proof.
  induction held as [|[c0 d0] held IH]; simpl; intros Hnd H1 H2; [contradiction|].
  inversion Hnd as [|? ? Hnotin Hnd']; subst.
  destruct H1 as [H1|H1], H2 as [H2|H2].
  - congruence.
  - exfalso. injection H1 as -> ->. apply Hnotin. apply (in_map snd) in H2. exact H2.
  - exfalso. injection H2 as -> ->. apply Hnotin. apply (in_map snd) in H1. exact H1.
  - now apply IH.
Qed.

Lemma release_NoDup caller device held :
  List.NoDup (map snd held) -> List.NoDup (map snd (release caller device held)).
Proof.
  unfold release.
  induction held as [|[c d] held IH]; simpl; intros Hnd; [constructor|].
  inversion Hnd as [|? ? Hnotin Hnd']; subst.
  destruct (negb _); simpl; [|now apply IH].
  constructor; [|now apply IH].
  intros Hin. apply Hnotin. apply in_map_iff in Hin as ([c' d'] & Heq & Hin).
  simpl in Heq. subst d'. apply List.filter_In in Hin as [Hin _].
  apply (in_map snd) in Hin. exact Hin.
Qed.

Lemma release_length caller device held :
  List.NoDup (map snd held) ->
  In (caller, device) held ->
  S (length (release caller device held)) = length held.
Proof.
  unfold release.
  induction held as [|[c d] held IH]; simpl; intros Hnd Hin; [contradiction|].
  inversion Hnd as [|? ? Hnotin Hnd']; subst.
  destruct Hin as [[= -> ->]|Hin].
  - rewrite Nat.eqb_refl, Z.eqb_refl. simpl. f_equal.
    clear IH Hnd. induction held as [|[c d] held IH]; [reflexivity|].
    simpl in *. destruct (Z.eqb_spec d device) as [->|Hne].
    + exfalso. apply Hnotin. now left.
    + rewrite andb_false_r. simpl. f_equal. apply IH.
      * intros Hin. apply Hnotin. now right.
      * now inversion Hnd'.
  - destruct (Z.eqb_spec d device) as [->|Hne].
    + exfalso. apply Hnotin. apply (in_map snd) in Hin. exact Hin.
    + rewrite andb_false_r. simpl. f_equal. now apply IH.
Qed.

Lemma initial_consistent K : consistent (initial (Z.of_nat K)).
Proof.
  split; simpl.
  - apply createDeviceTable_wellSized.
  - constructor.
  - contradiction.
  - rewrite Nat2Z.id. induction K as [|K IH]; [reflexivity|exact IH].
Qed.

Lemma step_allocated_fresh s caller device s' :
  consistent s ->
  step s (Allocated caller device) s' ->
  busyDevices (pool s) !! Z.to_nat device = Some false /\
  busyDevices (pool s') !! Z.to_nat device = Some true /\
  ~ In device (map snd (leases s)).
Proof.
  intros Hs Hstep. inversion Hstep as [? ? busy ? Hpos Hscan| |]; subst.
  pose proof (lockedScan_spec (pool s) (consistent_size s Hs)) as Hspec.
  rewrite Hscan in Hspec. destruct Hspec as (Hd & Hwas & Hset & _).
  split; [assumption|]. split.
  - simpl. subst busy. apply list_lookup_insert_eq. now apply lookup_lt_Some in Hwas.
  - intros Hin. apply in_map_iff in Hin as ([c d] & Heq & Hin). simpl in Heq. subst d.
    destruct (consistent_busy s Hs c device Hin) as [_ Hbusy]. congruence.
Qed.

Lemma step_consistent s e s' : consistent s -> step s e s' -> consistent s'.
Proof.
  intros Hs Hstep.
  destruct Hs as [Hsize Hholders Hbusy Hcount].
  inversion Hstep as [caller device busy ? Hpos Hscan
                     |caller ? Hpos Hscan
                     |caller device p' ? Hheld Hfree]; subst.
  - pose proof (step_allocated_fresh s caller device _
                  (Build_consistent s Hsize Hholders Hbusy Hcount) Hstep)
      as (Hwas & _ & Hfresh).
    pose proof (lockedScan_spec (pool s) Hsize) as Hspec.
    rewrite Hscan in Hspec. destruct Hspec as (Hd & _ & Hset & _). subst busy.
    split; simpl.
    + apply wellSized_withFlags; [assumption|apply length_insert].
    + constructor; assumption.
    + intros c d [[= -> ->]|Hin].
      * split; [lia|]. apply list_lookup_insert_eq. now apply lookup_lt_Some in Hwas.
      * destruct (Hbusy c d Hin) as [Hrange Hflag]. split; [assumption|].
        destruct (Nat.eq_dec (Z.to_nat device) (Z.to_nat d)) as [Heq|Hne].
        -- rewrite Heq. apply list_lookup_insert_eq. now apply lookup_lt_Some in Hflag.
        -- now rewrite list_lookup_insert_ne.
    + rewrite countBusy_set by assumption. now f_equal.
  - split; assumption.
  - destruct (Hbusy caller device Hheld) as [Hrange Hflag].
    unfold freeDevice in Hfree.
    destruct ((0 <=? device) && (device <? Z.of_nat (length (busyDevices (pool s)))));
      [|discriminate].
    injection Hfree as <-. split; simpl.
    + apply wellSized_withFlags; [assumption|apply length_insert].
    + now apply release_NoDup.
    + intros c d Hin. apply release_In in Hin as [Hin Hother].
      destruct (Hbusy c d Hin) as [Hrange' Hflag']. split; [assumption|].
      rewrite list_lookup_insert_ne; [assumption|].
      intros Heq. assert (device = d) by lia. subst d.
      apply Hother. f_equal. eapply NoDup_snd_unique; eassumption.
    + pose proof (countBusy_clear _ _ Hflag) as Hc.
      pose proof (release_length caller device _ Hholders Hheld) as Hl. lia.
Qed.

Lemma run_consistent s es s' : consistent s -> run s es s' -> consistent s'.
Proof.
  intros Hs Hrun. induction Hrun as [|s e s' es s'' Hrun IH Hstep]; [assumption|].
  eapply step_consistent; [apply IH; assumption|eassumption].
Qed.

Lemma allocatedIn_app es es' : allocatedIn (es ++ es') = allocatedIn es ++ allocatedIn es'.
Proof. unfold allocatedIn. apply flat_map_app. Qed.

Lemma freesIn_app es es' : freesIn (es ++ es') = (freesIn es + freesIn es')%nat.
Proof. unfold freesIn. now rewrite List.filter_app, length_app. Qed.

(** Without a [freeDevice], the devices held are the devices handed out. *)
Lemma run_without_free s es s' :
  run s es s' ->
  freesIn es = 0%nat ->
  map snd (leases s') = rev (allocatedIn es) ++ map snd (leases s).
Proof.
  intros Hrun. induction Hrun as [|s e s' es s'' Hrun IH Hstep]; intros Hfree.
  - reflexivity.
  - rewrite freesIn_app in Hfree. rewrite allocatedIn_app, rev_app_distr.
    inversion Hstep; subst; simpl in *.
    + f_equal. apply IH. lia.
    + apply IH. lia.
    + unfold freesIn in Hfree. simpl in Hfree. lia.
Qed.

(** C5 (amended).  Callers share a pool created with [K] devices and run
    any interleaving of the lock-held critical sections, each caller freeing
    only devices it holds.  In every reachable state no device id is held
    twice, and every held id is a device of the pool whose busy flag is
    set; [allocateDevice] hands out only an id whose flag was clear, sets
    the flag in the same critical section, and that id was held by nobody;
    and as long as nothing is freed the ids handed out are pairwise
    distinct, fewer than [K] of them leave a device for the next call, and
    after [K] of them the next call finds none. *)
Theorem device_pool_never_double_allocates (K : nat) (es : list Event) (s : System) :
  run (initial (Z.of_nat K)) es s ->
  List.NoDup (map snd (leases s)) /\
  (forall caller device,
     In (caller, device) (leases s) ->
     0 <= device < Z.of_nat K /\
     busyDevices (pool s) !! Z.to_nat device = Some true) /\
  (forall caller device s',
     step s (Allocated caller device) s' ->
     busyDevices (pool s) !! Z.to_nat device = Some false /\
     busyDevices (pool s') !! Z.to_nat device = Some true /\
     ~ In device (map snd (leases s))) /\
  (freesIn es = 0%nat ->
   List.NoDup (allocatedIn es) /\
   (length (allocatedIn es) <= K)%nat /\
   ((length (allocatedIn es) < K)%nat ->
    exists device busy, lockedScan (pool s) = Found device busy) /\
   (length (allocatedIn es) = K -> lockedScan (pool s) = NoneFree)).
Proof.
  intros Hrun.
  pose proof (run_consistent _ _ _ (initial_consistent K) Hrun) as Hs.
  assert (Hsize : numDevices (pool s) = Z.of_nat K
                  /\ length (busyDevices (pool s)) = K).
  { clear Hs. remember (initial (Z.of_nat K)) as s0 eqn:Hs0.
    induction Hrun as [|s0 e s' es s'' Hrun IH Hstep].
    - subst. simpl. rewrite length_replicate. lia.
    - specialize (IH Hs0). inversion Hstep as [? ? busy ? ? Hscan| |? ? ? ? ? Hfree]; subst.
      + simpl. split; [tauto|].
        assert (Hwf : wellSized (pool s')) by (unfold wellSized; lia).
        pose proof (lockedScan_spec (pool s') Hwf) as Hspec. rewrite Hscan in Hspec.
        destruct Hspec as (_ & _ & -> & _). rewrite length_insert. tauto.
      + assumption.
      + unfold freeDevice in Hfree. destruct (_ && _); [|discriminate].
        injection Hfree as <-. simpl. rewrite length_insert. assumption. }
  destruct Hsize as [HnumK HlenK].
  split; [apply (consistent_holders s Hs)|]. split; [|split].
  - intros caller device Hin.
    destruct (consistent_busy s Hs caller device Hin) as [Hrange Hflag].
    split; [lia|assumption].
  - intros caller device s' Hstep. eapply step_allocated_fresh; eassumption.
  - intros Hnofree.
    pose proof (run_without_free _ _ _ Hrun Hnofree) as Hheld.
    simpl in Hheld. rewrite app_nil_r in Hheld.
    assert (Hlen : length (allocatedIn es) = countBusy (busyDevices (pool s))).
    { rewrite (consistent_count s Hs), <- (length_map snd), Hheld. now rewrite length_rev. }
    pose proof (countBusy_le (busyDevices (pool s))) as Hle.
    split; [|split; [lia|split]].
    + rewrite <- (rev_involutive (allocatedIn es)), <- Hheld.
      apply List.NoDup_rev, (consistent_holders s Hs).
    + intros Hlt.
      assert (Hfree : exists i, busyDevices (pool s) !! i = Some false)
        by (apply countBusy_free; lia).
      destruct Hfree as [i Hi].
      eapply lockedScan_finds; [apply (consistent_size s Hs)|eassumption].
    + intros Hfull.
      pose proof (lockedScan_spec (pool s) (consistent_size s Hs)) as Hspec.
      destruct (lockedScan (pool s)) as [d busy'| |]; [|reflexivity|contradiction].
      destruct Hspec as (_ & Hwas & _).
      assert (Hlt : (countBusy (busyDevices (pool s)) < length (busyDevices (pool s)))%nat)
        by (apply countBusy_free; eauto).
      lia.
Qed.

Lemma device_pool_never_double_allocates_witness :
  run (initial 2) [Allocated 7 0; Allocated 8 1]
    {| pool := {| numDevices := 2; busyDevices := [true; true] |};
       leases := [(8%nat, 1); (7%nat, 0)] |} /\
  List.NoDup [1; 0] /\
  List.NoDup (allocatedIn [Allocated 7 0; Allocated 8 1]) /\
  lockedScan {| numDevices := 2; busyDevices := [true; true] |} = NoneFree.
Proof.
  assert (Hrun : run (initial 2) [Allocated 7 0; Allocated 8 1]
                   {| pool := {| numDevices := 2; busyDevices := [true; true] |};
                      leases := [(8%nat, 1); (7%nat, 0)] |}).
  { apply (run_step _ (Allocated 8 1)
             {| pool := {| numDevices := 2; busyDevices := [true; false] |};
                leases := [(7%nat, 0)] |} [Allocated 7 0]).
    - apply (run_step _ (Allocated 7 0) (initial 2) []); [apply run_nil|].
      apply (step_allocated 7 0 [true; false] (initial 2)); reflexivity.
    - apply (step_allocated 8 1 [true; true]
               {| pool := {| numDevices := 2; busyDevices := [true; false] |};
                  leases := [(7%nat, 0)] |}); reflexivity. }
  split; [exact Hrun|].
  destruct (device_pool_never_double_allocates 2 _ _ Hrun) as (Hheld & _ & _ & Hfresh).
  destruct (Hfresh eq_refl) as (Hdistinct & _ & _ & Hnone).
  split; [exact Hheld|]. split; [exact Hdistinct|]. exact (Hnone eq_refl).
Defined.

(** Every run of callers that free only what they hold is a run of the
    code. *)
Lemma run_runUnchecked s es s' : run s es s' -> runUnchecked s es s'.
Proof.
  induction 1 as [|s e s' es s'' _ IH Hstep]; [constructor|].
  apply unchecked_step with s'; [exact IH|].
  destruct Hstep; now constructor.
Qed.

(** C5 as stated fails without the callers' discipline, which
    [freeDevice] does not check: on a pool of one device, caller 8
    allocates device 0, caller 9 frees it, and caller 9 allocates it;
    both callers now hold device 0. *)
Lemma foreign_free_double_allocates :
  runUnchecked (initial 1) [Allocated 8 0; Freed 9 0; Allocated 9 0]
    {| pool := {| numDevices := 1; busyDevices := [true] |};
       leases := [(9%nat, 0); (8%nat, 0)] |} /\
  ~ List.NoDup (map snd [(9%nat, 0); (8%nat, 0)]).
Proof.
  split.
  - apply (unchecked_step _ (Allocated 9 0)
             {| pool := {| numDevices := 1; busyDevices := [false] |};
                leases := [(8%nat, 0)] |} [Allocated 8 0; Freed 9 0]).
    + apply (unchecked_step _ (Freed 9 0)
               {| pool := {| numDevices := 1; busyDevices := [true] |};
                  leases := [(8%nat, 0)] |} [Allocated 8 0]).
      * apply (unchecked_step _ (Allocated 8 0) (initial 1) []); [apply unchecked_nil|].
        apply (unchecked_allocated 8 0 [true] (initial 1)); reflexivity.
      * apply (unchecked_freed 9 0 {| numDevices := 1; busyDevices := [false] |}
                 {| pool := {| numDevices := 1; busyDevices := [true] |};
                    leases := [(8%nat, 0)] |}). reflexivity.
    + apply (unchecked_allocated 9 0 [true]
               {| pool := {| numDevices := 1; busyDevices := [false] |};
                  leases := [(8%nat, 0)] |}); reflexivity.
  - simpl. intros Hnodup. inversion Hnodup as [|? ? Hnotin _]. apply Hnotin. now left.
Qed.

End DevicePool.

(** * Eigenvalue access *)

Section EigenValues.

Import PropertyExtractor.

(** C9.  [getEigenValue(state)] returns the eigenvalue stored at position
    [state] of the solver's (ascending) eigenvalue sequence for every
    [state] in [[0, N)], and fails for every [state] outside that range. *)
Theorem getEigenValue_indexes (extractor : Diagonalizer) (state : Z) :
  (0 <= state < Z.of_nat (length (Solver.eigenValues (dSolver extractor))) ->
   exists e,
     Solver.eigenValues (dSolver extractor) !! Z.to_nat state = Some e /\
     getEigenValue extractor state = Returns e) /\
  (~ 0 <= state < Z.of_nat (length (Solver.eigenValues (dSolver extractor))) ->
   failed (getEigenValue extractor state)).
Proof.
  unfold getEigenValue, Solver.getEigenValue. split.
  - intros Hrange.
    destruct (lookup_lt_is_Some_2 (Solver.eigenValues (dSolver extractor)) (Z.to_nat state))
      as [e He]; [lia|].
    exists e. split; [assumption|].
    destruct (Z.ltb_spec state 0); [lia|]. now rewrite He.
  - intros Hout. exists (StateOutOfRange state).
    destruct (Z.ltb_spec state 0); [reflexivity|].
    destruct (Solver.eigenValues (dSolver extractor) !! Z.to_nat state) eqn:He; [|reflexivity].
    apply lookup_lt_Some in He. lia.
Qed.

Lemma getEigenValue_indexes_witness :
  (exists e,
     [(-1)%float; 1%float] !! Z.to_nat 1 = Some e /\
     getEigenValue {| dSolver := {| Solver.eigenValues := [(-1)%float; 1%float] |} |} 1
       = Returns e) /\
  failed (getEigenValue {| dSolver := {| Solver.eigenValues := [(-1)%float; 1%float] |} |} 2).
Proof.
  split.
  - apply (getEigenValue_indexes
             {| dSolver := {| Solver.eigenValues := [(-1)%float; 1%float] |} |} 1).
    simpl. lia.
  - apply (getEigenValue_indexes
             {| dSolver := {| Solver.eigenValues := [(-1)%float; 1%float] |} |} 2).
    simpl. lia.
Defined.

End EigenValues.

(** * The self-energy vertex *)

Section VertexFacts.

Import Vertex.

Context {arithmetic : Arithmetic}.
Variable split : Index -> list Index.

(** *** The arity checks *)

Lemma checkBlocks_single blocks : forall n,
  forallb single blocks = true -> checkBlocks n blocks = Returns tt.
Proof.
  induction blocks as [|block blocks IH]; intros n H; simpl in *; [reflexivity|].
  apply andb_prop in H as [Hb Hrest]. unfold single in Hb. rewrite Hb. simpl.
  now apply IH.
Qed.

Lemma checkBlocks_mismatch blocks : forall n,
  forallb single blocks = false ->
  exists k size, checkBlocks n blocks = Exits (SubindexCount k size) /\ size <> 1%nat.
Proof.
  induction blocks as [|block blocks IH]; intros n H; simpl in *; [discriminate|].
  unfold single in H at 1. destruct (Nat.eqb_spec (length block) 1) as [Hb|Hb]; simpl in *.
  - now apply IH.
  - exists (n + 1)%nat, (length block). split; [reflexivity|assumption].
Qed.

Lemma skipn_intraBlockIndicesOf (components : list Index) :
  length components = 5%nat -> skipn 1 components = intraBlockIndicesOf components.
Proof.
  destruct components as [|k [|b0 [|b1 [|b2 [|b3 [|]]]]]]; simpl; try discriminate.
  reflexivity.
Qed.

Lemma mainAlgorithm_wellShaped vertex index chi uLeft uRight multiplier :
  wellShaped (split index) = true ->
  calculateSelfEnergyVertexMainAlgorithm split vertex index chi uLeft uRight multiplier
  = Returns (incomingLoop chi multiplier (kIndexOf (split index))
               (intraBlockIndicesOf (split index)) vertex uLeft uRight).
Proof.
  unfold wellShaped, calculateSelfEnergyVertexMainAlgorithm. intros H.
  apply andb_prop in H as [Hlen Hblocks]. rewrite Hlen.
  apply Nat.eqb_eq in Hlen. rewrite skipn_intraBlockIndicesOf in Hblocks by assumption.
  unfold_bind.
  now rewrite (checkBlocks_single _ 0%nat Hblocks).
Qed.

Lemma mainAlgorithm_misshaped vertex index chi uLeft uRight multiplier :
  wellShaped (split index) = false ->
  exists d,
    calculateSelfEnergyVertexMainAlgorithm split vertex index chi uLeft uRight multiplier
    = Exits d /\ arityMismatch d.
Proof.
  unfold wellShaped, calculateSelfEnergyVertexMainAlgorithm. intros H.
  destruct (Nat.eqb_spec (length (split index)) 5) as [Hlen|Hlen]; cbn [andb] in H.
  - rewrite skipn_intraBlockIndicesOf in H by assumption.
    destruct (checkBlocks_mismatch _ 0%nat H) as (k & size & Hcheck & _).
    exists (SubindexCount k size). unfold_bind. rewrite Hcheck.
    split; [reflexivity|exact I].
  - exists (ComponentCount (length (split index))). split; [reflexivity|exact I].
Qed.

Lemma wellShaped_iff (components : list Index) :
  wellShaped components = true <->
  length components = 5%nat /\
  forall k, (1 <= k <= 4)%nat -> length (nth k components []) = 1%nat.
Proof.
  unfold wellShaped. rewrite andb_true_iff, Nat.eqb_eq. split.
  - intros [Hlen Hblocks]. split; [assumption|].
    rewrite skipn_intraBlockIndicesOf in Hblocks by assumption.
    unfold intraBlockIndicesOf in Hblocks. simpl in Hblocks.
    rewrite !andb_true_iff in Hblocks. unfold single in Hblocks.
    rewrite !Nat.eqb_eq in Hblocks.
    intros k Hk.
    assert (k = 1 \/ k = 2 \/ k = 3 \/ k = 4)%nat as [-> | [-> | [-> | ->]]] by lia; tauto.
  - intros [Hlen Hblocks]. split; [assumption|].
    rewrite skipn_intraBlockIndicesOf by assumption.
    unfold intraBlockIndicesOf, single. simpl.
    rewrite !(Hblocks _) by lia. reflexivity.
Qed.

Lemma misshaped_iff (components : list Index) :
  wellShaped components = false <->
  length components <> 5%nat \/
  exists k, (1 <= k <= 4)%nat /\ length (nth k components []) <> 1%nat.
Proof.
  split.
  - intros Hshape.
    destruct (Nat.eq_dec (length components) 5%nat) as [Hlen|Hlen]; [right|now left].
    destruct (Nat.eq_dec (length (nth 1 components [])) 1%nat);
      [|exists 1%nat; split; [lia|assumption]].
    destruct (Nat.eq_dec (length (nth 2 components [])) 1%nat);
      [|exists 2%nat; split; [lia|assumption]].
    destruct (Nat.eq_dec (length (nth 3 components [])) 1%nat);
      [|exists 3%nat; split; [lia|assumption]].
    destruct (Nat.eq_dec (length (nth 4 components [])) 1%nat);
      [|exists 4%nat; split; [lia|assumption]].
    exfalso. apply not_true_iff_false in Hshape. apply Hshape, wellShaped_iff.
    split; [assumption|]. intros k Hk.
    assert (k = 1 \/ k = 2 \/ k = 3 \/ k = 4)%nat as [-> | [-> | [-> | ->]]] by lia;
      assumption.
  - intros Hbad. destruct (wellShaped components) eqn:Hshape; [|reflexivity].
    apply wellShaped_iff in Hshape as [Hlen Hblocks].
    destruct Hbad as [Hbad|(k & Hk & Hbad)]; [contradiction|].
    now specialize (Hblocks k Hk).
Qed.

(** C1.  Whenever the Index does not split into exactly 5 components, or
    one of the last 4 components has more than one subindex (or none), the
    main algorithm ends with an arity diagnostic and returns no vector, and
    so does [calculateSelfEnergyVertex] unless it has already ended on the
    energy type.  When the Index splits into exactly 5 components whose
    last 4 have a single subindex each, both checks pass and the result is
    the one the accumulation loops compute. *)
Theorem arity_checks (solver : ElectronFluctuationVertex) (vertex : list complex)
    (index : Index) (chi : Susceptibility)
    (uLeft uRight : list InteractionAmplitude) (multiplier : real) :
  (length (split index) <> 5%nat \/
   (exists k, (1 <= k <= 4)%nat /\ length (nth k (split index) []) <> 1%nat) ->
   (exists d,
      calculateSelfEnergyVertexMainAlgorithm split vertex index chi uLeft uRight multiplier
      = Exits d /\ arityMismatch d) /\
   (exists d,
      calculateSelfEnergyVertex split solver index = Exits d /\
      (getEnergyType (susceptibility solver) <> FermionicMatsubara -> arityMismatch d))) /\
  (length (split index) <> 5%nat ->
   calculateSelfEnergyVertexMainAlgorithm split vertex index chi uLeft uRight multiplier
   = Exits (ComponentCount (length (split index)))) /\
  (length (split index) = 5%nat /\
   (forall k, (1 <= k <= 4)%nat -> length (nth k (split index) []) = 1%nat) ->
   calculateSelfEnergyVertexMainAlgorithm split vertex index chi uLeft uRight multiplier
   = Returns (incomingLoop chi multiplier (kIndexOf (split index))
                (intraBlockIndicesOf (split index)) vertex uLeft uRight) /\
   (getEnergyType (susceptibility solver) <> FermionicMatsubara ->
    exists v, calculateSelfEnergyVertex split solver index = Returns v)).
Proof.
  split; [|split].
  - intros Hbad. apply misshaped_iff in Hbad.
    split; [now apply mainAlgorithm_misshaped|].
    unfold calculateSelfEnergyVertex; unfold_bind.
    destruct (getEnergyType (susceptibility solver)); cbn [bind].
    + destruct (mainAlgorithm_misshaped (zeroVertex (getResolution (susceptibility solver)))
                  index (susceptibility solver) (leftInteraction solver)
                  (rightInteraction solver) (Vertex.multiplier solver) Hbad) as (d & Hd & Harity).
      exists d. split; [assumption|intros _; assumption].
    + exists UnknownEnergyType. split; [reflexivity|]. intros Hne. now contradiction Hne.
    + destruct (mainAlgorithm_misshaped
                  (zeroVertex (getNumMatsubaraEnergies (susceptibility solver)))
                  index (susceptibility solver) (leftInteraction solver)
                  (rightInteraction solver) (Vertex.multiplier solver) Hbad) as (d & Hd & Harity).
      exists d. split; [assumption|intros _; assumption].
  - intros Hlen. unfold calculateSelfEnergyVertexMainAlgorithm.
    now destruct (Nat.eqb_spec (length (split index)) 5).
  - intros Hgood. apply wellShaped_iff in Hgood.
    split; [now apply mainAlgorithm_wellShaped|].
    intros Hknown. unfold calculateSelfEnergyVertex; unfold_bind.
    destruct (getEnergyType (susceptibility solver)); cbn [bind];
      [|now contradiction Hknown|]; rewrite mainAlgorithm_wellShaped by assumption; eauto.
Qed.

(** *** Negligible amplitudes *)

Lemma significant_false_skipsIncoming blocks (u : InteractionAmplitude) :
  significant u = false -> skipsIncoming blocks u = true.
Proof.
  unfold significant, skipsIncoming. intros H. apply negb_false_iff in H.
  rewrite H. apply orb_true_r.
Qed.

Lemma significant_false_skipsOutgoing blocks (u : InteractionAmplitude) :
  significant u = false -> skipsOutgoing blocks u = true.
Proof.
  unfold significant, skipsOutgoing. intros H. apply negb_false_iff in H.
  rewrite H. apply orb_true_r.
Qed.

Lemma outgoingLoop_significant chi multiplier kIndex blocks incoming uRight : forall vertex,
  outgoingLoop chi multiplier kIndex blocks incoming vertex (List.filter significant uRight)
  = outgoingLoop chi multiplier kIndex blocks incoming vertex uRight.
Proof.
  unfold outgoingLoop.
  induction uRight as [|u uRight IH]; intros vertex; simpl; [reflexivity|].
  destruct (significant u) eqn:Hu; simpl.
  - apply IH.
  - rewrite (significant_false_skipsOutgoing blocks u Hu). apply IH.
Qed.

Lemma incomingLoop_significant_right chi multiplier kIndex blocks uLeft uRight :
  forall vertex,
  incomingLoop chi multiplier kIndex blocks vertex uLeft (List.filter significant uRight)
  = incomingLoop chi multiplier kIndex blocks vertex uLeft uRight.
Proof.
  unfold incomingLoop.
  induction uLeft as [|u uLeft IH]; intros vertex; simpl; [reflexivity|].
  rewrite outgoingLoop_significant. apply IH.
Qed.

Lemma incomingLoop_significant_left chi multiplier kIndex blocks uLeft uRight :
  forall vertex,
  incomingLoop chi multiplier kIndex blocks vertex (List.filter significant uLeft) uRight
  = incomingLoop chi multiplier kIndex blocks vertex uLeft uRight.
Proof.
  unfold incomingLoop.
  induction uLeft as [|u uLeft IH]; intros vertex; simpl; [reflexivity|].
  destruct (significant u) eqn:Hu; simpl.
  - apply IH.
  - rewrite (significant_false_skipsIncoming blocks u Hu). apply IH.
Qed.

(** C2.  Amplitudes whose magnitude is below the cutoff contribute
    nothing: the outcome of the main algorithm, and so the vector it
    returns, is the same as with every such amplitude removed from
    [uLeft] and from [uRight]. *)
Theorem negligible_amplitudes_skipped (vertex : list complex) (index : Index)
    (chi : Susceptibility) (uLeft uRight : list InteractionAmplitude) (multiplier : real) :
  calculateSelfEnergyVertexMainAlgorithm split vertex index chi uLeft uRight multiplier
  = calculateSelfEnergyVertexMainAlgorithm split vertex index chi
      (List.filter significant uLeft) (List.filter significant uRight) multiplier.
Proof.
  unfold calculateSelfEnergyVertexMainAlgorithm; unfold_bind.
  destruct (TBTKAssert _ _) as [[]| | |]; try reflexivity. cbn [bind].
  destruct (checkBlocks _ _) as [[]| | |]; try reflexivity. cbn [bind].
  f_equal.
  now rewrite incomingLoop_significant_left, incomingLoop_significant_right.
Qed.

(** *** The accumulation as a sum of contributions *)

Lemma outgoingLoop_contributions chi multiplier kIndex blocks incoming uRight :
  forall vertex,
  outgoingLoop chi multiplier kIndex blocks incoming vertex uRight
  = fold_left (accumulate 0%N)
      (map (contribution chi multiplier kIndex incoming)
           (List.filter (fun u => negb (skipsOutgoing blocks u)) uRight))
      vertex.
Proof.
  unfold outgoingLoop.
  induction uRight as [|u uRight IH]; intros vertex; simpl; [reflexivity|].
  destruct (skipsOutgoing blocks u); simpl; apply IH.
Qed.

Lemma incomingLoop_contributions chi multiplier kIndex blocks uLeft uRight :
  forall vertex,
  incomingLoop chi multiplier kIndex blocks vertex uLeft uRight
  = fold_left (accumulate 0%N)
      (contributions chi multiplier kIndex blocks uLeft uRight) vertex.
Proof.
  unfold incomingLoop, contributions.
  induction uLeft as [|u uLeft IH]; intros vertex; simpl; [reflexivity|].
  destruct (skipsIncoming blocks u); simpl; [apply IH|].
  rewrite fold_left_app, <- outgoingLoop_contributions. apply IH.
Qed.

Lemma Permutation_filter_bool {A : Type} (f : A -> bool) (l l' : list A) :
  Permutation l l' -> Permutation (List.filter f l) (List.filter f l').
Proof.
  induction 1 as [|x l l' _ IH|x y l|l l' l'' _ IH1 _ IH2]; simpl.
  - constructor.
  - destruct (f x); [now constructor|assumption].
  - destruct (f x), (f y); try reflexivity. apply perm_swap.
  - now transitivity (List.filter f l').
Qed.

Lemma Permutation_flat_map_pointwise {A B : Type} (f g : A -> list B) (l : list A) :
  (forall a, Permutation (f a) (g a)) -> Permutation (flat_map f l) (flat_map g l).
Proof.
  intros H. induction l as [|a l IH]; simpl; [constructor|].
  now apply Permutation_app.
Qed.

Lemma contributions_Permutation chi multiplier kIndex blocks uLeft uLeft' uRight uRight' :
  Permutation uLeft uLeft' ->
  Permutation uRight uRight' ->
  Permutation (contributions chi multiplier kIndex blocks uLeft uRight)
              (contributions chi multiplier kIndex blocks uLeft' uRight').
Proof.
  intros HL HR. unfold contributions.
  etransitivity.
  - apply Permutation_flat_map, Permutation_filter_bool, HL.
  - apply Permutation_flat_map_pointwise. intros incoming.
    apply Permutation_map, Permutation_filter_bool, HR.
Qed.

Lemma fold_left_Permutation {A B : Type} (f : A -> B -> A) (l l' : list B) :
  (forall a x y, f (f a x) y = f (f a y) x) ->
  Permutation l l' ->
  forall a, fold_left f l a = fold_left f l' a.
Proof.
  intros Hf. induction 1 as [|x l l' _ IH|x y l|l l' l'' _ IH1 _ IH2]; intros a; simpl.
  - reflexivity.
  - apply IH.
  - now rewrite Hf.
  - now rewrite IH1.
Qed.

Lemma accumulate_swap :
  (forall x y z : complex, cadd (cadd x y) z = cadd x (cadd y z)) ->
  (forall x y : complex, cadd x y = cadd y x) ->
  forall (vertex : list complex) (n : N) (f g : N -> complex),
    accumulate n (accumulate n vertex f) g = accumulate n (accumulate n vertex g) f.
Proof.
  intros Hassoc Hcomm.
  induction vertex as [|z vertex IH]; intros n f g; simpl; [reflexivity|].
  rewrite IH. f_equal.
  now rewrite !Hassoc, (Hcomm (f n)).
Qed.

(** *** The length of the result *)

Lemma accumulate_length (vertex : list complex) : forall n term,
  length (accumulate n vertex term) = length vertex.
Proof.
  induction vertex as [|z vertex IH]; intros n term; simpl; [reflexivity|].
  now rewrite IH.
Qed.

Lemma fold_accumulate_length (terms : list (N -> complex)) : forall vertex,
  length (fold_left (accumulate 0%N) terms vertex) = length vertex.
Proof.
  induction terms as [|term terms IH]; intros vertex; simpl; [reflexivity|].
  now rewrite IH, accumulate_length.
Qed.

Lemma incomingLoop_length chi multiplier kIndex blocks vertex uLeft uRight :
  length (incomingLoop chi multiplier kIndex blocks vertex uLeft uRight) = length vertex.
Proof. rewrite incomingLoop_contributions. apply fold_accumulate_length. Qed.

Lemma zeroVertex_length numEnergies : length (zeroVertex numEnergies) = numEnergies.
Proof.
  unfold zeroVertex. induction numEnergies as [|n IH]; simpl; [reflexivity|].
  rewrite length_app, IH. simpl. lia.
Qed.

(** *** Reordering the amplitude lists *)

(** C3 (amended).  For a well-shaped Index, the main algorithm returns
    the left-to-right sum of the contributions of the amplitude pairs that
    pass the two filters, and permuting [uLeft] and [uRight] permutes that
    list of contributions.  Hence the returned vector is unchanged
    whenever the addition of the arithmetic is associative and commutative;
    in an arithmetic without these laws only the order of summation
    differs. *)
Theorem accumulation_permutation_invariant (vertex : list complex) (index : Index)
    (chi : Susceptibility) (uLeft uLeft' uRight uRight' : list InteractionAmplitude)
    (multiplier : real) :
  wellShaped (split index) = true ->
  Permutation uLeft uLeft' ->
  Permutation uRight uRight' ->
  calculateSelfEnergyVertexMainAlgorithm split vertex index chi uLeft uRight multiplier
  = Returns (fold_left (accumulate 0%N)
               (contributions chi multiplier (kIndexOf (split index))
                  (intraBlockIndicesOf (split index)) uLeft uRight) vertex) /\
  calculateSelfEnergyVertexMainAlgorithm split vertex index chi uLeft' uRight' multiplier
  = Returns (fold_left (accumulate 0%N)
               (contributions chi multiplier (kIndexOf (split index))
                  (intraBlockIndicesOf (split index)) uLeft' uRight') vertex) /\
  Permutation
    (contributions chi multiplier (kIndexOf (split index))
       (intraBlockIndicesOf (split index)) uLeft uRight)
    (contributions chi multiplier (kIndexOf (split index))
       (intraBlockIndicesOf (split index)) uLeft' uRight') /\
  ((forall x y z : complex, cadd (cadd x y) z = cadd x (cadd y z)) ->
   (forall x y : complex, cadd x y = cadd y x) ->
   calculateSelfEnergyVertexMainAlgorithm split vertex index chi uLeft uRight multiplier
   = calculateSelfEnergyVertexMainAlgorithm split vertex index chi uLeft' uRight' multiplier).
Proof.
  intros Hshape HL HR.
  pose proof (contributions_Permutation chi multiplier (kIndexOf (split index))
                (intraBlockIndicesOf (split index)) _ _ _ _ HL HR) as Hperm.
  rewrite !mainAlgorithm_wellShaped, !incomingLoop_contributions by assumption.
  repeat split; try assumption.
  intros Hassoc Hcomm. f_equal.
  apply fold_left_Permutation; [|assumption].
  intros a f g. now apply accumulate_swap.
Qed.

(** *** The number of energies *)

Lemma calculateSelfEnergyVertex_numEnergies solver index numEnergies :
  wellShaped (split index) = true ->
  exists v,
    calculateSelfEnergyVertexMainAlgorithm split (zeroVertex numEnergies) index
      (susceptibility solver) (leftInteraction solver) (rightInteraction solver)
      (multiplier solver) = Returns v /\
    length v = numEnergies.
Proof.
  intros Hshape. rewrite mainAlgorithm_wellShaped by assumption.
  eexists. split; [reflexivity|].
  now rewrite incomingLoop_length, zeroVertex_length.
Qed.

Lemma mainAlgorithm_returns_length vertex index chi uLeft uRight multiplier v :
  calculateSelfEnergyVertexMainAlgorithm split vertex index chi uLeft uRight multiplier
  = Returns v ->
  length v = length vertex.
Proof.
  destruct (wellShaped (split index)) eqn:Hshape.
  - rewrite mainAlgorithm_wellShaped by assumption. intros [= <-].
    apply incomingLoop_length.
  - destruct (mainAlgorithm_misshaped vertex index chi uLeft uRight multiplier Hshape)
      as (d & -> & _). discriminate.
Qed.

(** C7.  For an Index that passes the arity checks,
    [calculateSelfEnergyVertex] returns a vector with exactly
    [getResolution()] entries when the energy type of the susceptibility is
    Real and with exactly [getNumMatsubaraEnergies()] entries when it is
    BosonicMatsubara; for any other energy type it ends with the "unknown
    energy type" diagnostic, whatever the Index; and whenever it returns a
    vector, the vector has the number of entries of one of the two cases. *)
Theorem calculateSelfEnergyVertex_entries (solver : ElectronFluctuationVertex)
    (index : Index) :
  (getEnergyType (susceptibility solver) = Real ->
   wellShaped (split index) = true ->
   exists v, calculateSelfEnergyVertex split solver index = Returns v /\
             length v = getResolution (susceptibility solver)) /\
  (getEnergyType (susceptibility solver) = BosonicMatsubara ->
   wellShaped (split index) = true ->
   exists v, calculateSelfEnergyVertex split solver index = Returns v /\
             length v = getNumMatsubaraEnergies (susceptibility solver)) /\
  (getEnergyType (susceptibility solver) <> Real ->
   getEnergyType (susceptibility solver) <> BosonicMatsubara ->
   calculateSelfEnergyVertex split solver index = Exits UnknownEnergyType) /\
  (forall v,
     calculateSelfEnergyVertex split solver index = Returns v ->
     (getEnergyType (susceptibility solver) = Real /\
      length v = getResolution (susceptibility solver)) \/
     (getEnergyType (susceptibility solver) = BosonicMatsubara /\
      length v = getNumMatsubaraEnergies (susceptibility solver))).
Proof.
  unfold calculateSelfEnergyVertex; unfold_bind.
  split; [|split; [|split]].
  - intros -> Hshape. now apply calculateSelfEnergyVertex_numEnergies.
  - intros -> Hshape. now apply calculateSelfEnergyVertex_numEnergies.
  - intros HnotReal HnotBosonic.
    destruct (getEnergyType (susceptibility solver)); [contradiction|reflexivity|contradiction].
  - intros v Hv.
    destruct (getEnergyType (susceptibility solver)); cbn [bind] in Hv.
    + left. split; [reflexivity|].
      apply mainAlgorithm_returns_length in Hv. now rewrite zeroVertex_length in Hv.
    + discriminate.
    + right. split; [reflexivity|].
      apply mainAlgorithm_returns_length in Hv. now rewrite zeroVertex_length in Hv.
Qed.

End VertexFacts.

(** * Worked examples *)

Section VertexExamples.

Import Vertex Examples.

(** *** The code on small inputs *)

Example splitAtSeparator_exampleIndex :
  splitAtSeparator exampleIndex = [[0]; [1]; [2]; [3]; [4]].
Proof. reflexivity. Qed.

Example calculateSelfEnergyVertex_real :
  calculateSelfEnergyVertex (arithmetic := gaussian) splitAtSeparator
    (exactSolver Real) exampleIndex
  = Returns [(302, 186); (356, 208)].
Proof. reflexivity. Qed.

Example calculateSelfEnergyVertex_bosonic :
  calculateSelfEnergyVertex (arithmetic := gaussian) splitAtSeparator
    (exactSolver BosonicMatsubara) exampleIndex
  = Returns [(302, 186); (356, 208); (410, 230)].
Proof. reflexivity. Qed.

Example calculateSelfEnergyVertex_fermionic :
  calculateSelfEnergyVertex (arithmetic := gaussian) splitAtSeparator
    (exactSolver FermionicMatsubara) exampleIndex
  = Exits UnknownEnergyType.
Proof. reflexivity. Qed.

Example calculateSelfEnergyVertex_two_components :
  calculateSelfEnergyVertex (arithmetic := gaussian) splitAtSeparator
    (exactSolver Real) [0; -1; 1]
  = Exits (ComponentCount 2).
Proof. reflexivity. Qed.

Example calculateSelfEnergyVertex_wide_block :
  calculateSelfEnergyVertex (arithmetic := gaussian) splitAtSeparator
    (exactSolver Real) [0; -1; 1; -1; 2; 5; -1; 3; -1; 4]
  = Exits (SubindexCount 2 2).
Proof. reflexivity. Qed.

Example calculateSelfEnergyVertex_empty_block :
  calculateSelfEnergyVertex (arithmetic := gaussian) splitAtSeparator
    (exactSolver Real) [0; -1; 1; -1; -1; 3; -1; 4]
  = Exits (SubindexCount 2 0).
Proof. reflexivity. Qed.

(** An amplitude of magnitude [2^-40] is below the cutoff and adds nothing. *)
Example binary64_negligible_skipped :
  calculateSelfEnergyVertexMainAlgorithm (arithmetic := binary64) splitAtSeparator
    [(0, 0)%float] exampleIndex doubleSusceptibility
    [incomingOf 0x1p-40; incomingOf 3] [outgoingUnit] 1%float
  = Returns [(3, 0)%float].
Proof. vm_compute. reflexivity. Qed.

Lemma arity_checks_witness :
  calculateSelfEnergyVertexMainAlgorithm (arithmetic := gaussian) splitAtSeparator
    [(0, 0)] [0; -1; 1] (exactSusceptibility Real) exactLeft exactRight 2
  = Exits (ComponentCount 2) /\
  calculateSelfEnergyVertexMainAlgorithm (arithmetic := gaussian) splitAtSeparator
    [(0, 0)] exampleIndex (exactSusceptibility Real) exactLeft exactRight 2
  = Returns [(302, 186)].
Proof.
  split.
  - apply (proj1 (proj2 (arity_checks (arithmetic := gaussian) splitAtSeparator
             (exactSolver Real) [(0, 0)] [0; -1; 1] (exactSusceptibility Real)
             exactLeft exactRight 2))).
    simpl. lia.
  - destruct (proj2 (proj2 (arity_checks (arithmetic := gaussian) splitAtSeparator
                 (exactSolver Real) [(0, 0)] exampleIndex (exactSusceptibility Real)
                 exactLeft exactRight 2))) as [Hmain _].
    + split; [reflexivity|]. intros k Hk.
      assert (k = 1 \/ k = 2 \/ k = 3 \/ k = 4)%nat as [-> | [-> | [-> | ->]]] by lia;
        reflexivity.
    + rewrite Hmain. reflexivity.
Defined.

Lemma gaussian_add_assoc (x y z : @complex gaussian) :
  cadd (cadd x y) z = cadd x (cadd y z).
Proof. destruct x, y, z. simpl. f_equal; lia. Qed.

Lemma gaussian_add_comm (x y : @complex gaussian) : cadd x y = cadd y x.
Proof. destruct x, y. simpl. f_equal; lia. Qed.

Lemma accumulation_permutation_invariant_witness :
  calculateSelfEnergyVertexMainAlgorithm (arithmetic := gaussian) splitAtSeparator
    [(0, 0); (0, 0)] exampleIndex (exactSusceptibility Real) exactLeft exactRight 2
  = calculateSelfEnergyVertexMainAlgorithm (arithmetic := gaussian) splitAtSeparator
      [(0, 0); (0, 0)] exampleIndex (exactSusceptibility Real)
      (rev exactLeft) (rev exactRight) 2 /\
  Permutation
    (contributions (arithmetic := binary64) doubleSusceptibility 1%float
       (kIndexOf (splitAtSeparator exampleIndex))
       (intraBlockIndicesOf (splitAtSeparator exampleIndex))
       [incomingOf 0x1p+100; incomingOf (-0x1p+100); incomingOf 1] [outgoingUnit])
    (contributions (arithmetic := binary64) doubleSusceptibility 1%float
       (kIndexOf (splitAtSeparator exampleIndex))
       (intraBlockIndicesOf (splitAtSeparator exampleIndex))
       [incomingOf 0x1p+100; incomingOf 1; incomingOf (-0x1p+100)] [outgoingUnit]).
Proof.
  split.
  - apply (accumulation_permutation_invariant (arithmetic := gaussian) splitAtSeparator
             [(0, 0); (0, 0)] exampleIndex (exactSusceptibility Real)
             exactLeft (rev exactLeft) exactRight (rev exactRight) 2).
    + reflexivity.
    + apply Permutation_rev.
    + apply Permutation_rev.
    + apply gaussian_add_assoc.
    + apply gaussian_add_comm.
  - apply (accumulation_permutation_invariant (arithmetic := binary64) splitAtSeparator
             [(0, 0)%float] exampleIndex doubleSusceptibility
             [incomingOf 0x1p+100; incomingOf (-0x1p+100); incomingOf 1]
             [incomingOf 0x1p+100; incomingOf 1; incomingOf (-0x1p+100)]
             [outgoingUnit] [outgoingUnit] 1%float).
    + reflexivity.
    + apply perm_skip, perm_swap.
    + apply Permutation_refl.
Defined.

(** C3 as stated fails in the arithmetic of the compiled code: with the
    incoming amplitudes [2^100], [-2^100] and [1], one outgoing amplitude
    [1], susceptibility data [1] and multiplier [1], the order
    [2^100, -2^100, 1] returns [1] and the order [2^100, 1, -2^100]
    returns [0], because [2^100 + 1] rounds to [2^100]. *)
Lemma permutation_changes_binary64_result :
  wellShaped (splitAtSeparator exampleIndex) = true /\
  Permutation [incomingOf 0x1p+100; incomingOf (-0x1p+100); incomingOf 1]
              [incomingOf 0x1p+100; incomingOf 1; incomingOf (-0x1p+100)] /\
  calculateSelfEnergyVertexMainAlgorithm (arithmetic := binary64) splitAtSeparator
    [(0, 0)%float] exampleIndex doubleSusceptibility
    [incomingOf 0x1p+100; incomingOf (-0x1p+100); incomingOf 1] [outgoingUnit] 1%float
  = Returns [(1, 0)%float] /\
  calculateSelfEnergyVertexMainAlgorithm (arithmetic := binary64) splitAtSeparator
    [(0, 0)%float] exampleIndex doubleSusceptibility
    [incomingOf 0x1p+100; incomingOf 1; incomingOf (-0x1p+100)] [outgoingUnit] 1%float
  = Returns [(0, 0)%float] /\
  calculateSelfEnergyVertexMainAlgorithm (arithmetic := binary64) splitAtSeparator
    [(0, 0)%float] exampleIndex doubleSusceptibility
    [incomingOf 0x1p+100; incomingOf (-0x1p+100); incomingOf 1] [outgoingUnit] 1%float
  <> calculateSelfEnergyVertexMainAlgorithm (arithmetic := binary64) splitAtSeparator
       [(0, 0)%float] exampleIndex doubleSusceptibility
       [incomingOf 0x1p+100; incomingOf 1; incomingOf (-0x1p+100)] [outgoingUnit] 1%float.
Proof.
  split; [reflexivity|]. split; [apply perm_skip, perm_swap|].
  split; [vm_compute; reflexivity|]. split; [vm_compute; reflexivity|].
  vm_compute. discriminate.
Qed.

Lemma calculateSelfEnergyVertex_entries_witness :
  (exists v,
     calculateSelfEnergyVertex (arithmetic := gaussian) splitAtSeparator
       (exactSolver Real) exampleIndex = Returns v /\
     length v = 2%nat) /\
  (exists v,
     calculateSelfEnergyVertex (arithmetic := gaussian) splitAtSeparator
       (exactSolver BosonicMatsubara) exampleIndex = Returns v /\
     length v = 3%nat) /\
  calculateSelfEnergyVertex (arithmetic := gaussian) splitAtSeparator
    (exactSolver FermionicMatsubara) exampleIndex = Exits UnknownEnergyType.
Proof.
  split; [|split].
  - apply (proj1 (calculateSelfEnergyVertex_entries (arithmetic := gaussian)
             splitAtSeparator (exactSolver Real) exampleIndex)); reflexivity.
  - apply (proj1 (proj2 (calculateSelfEnergyVertex_entries (arithmetic := gaussian)
             splitAtSeparator (exactSolver BosonicMatsubara) exampleIndex))); reflexivity.
  - apply (proj1 (proj2 (proj2 (calculateSelfEnergyVertex_entries (arithmetic := gaussian)
             splitAtSeparator (exactSolver FermionicMatsubara) exampleIndex))));
      discriminate.
Defined.

End VertexExamples.

(** * Further properties of the device pool *)

Section DevicePoolComposition.

Import GPUResourceManager.

Lemma allocateDevice_Returns_inv fuel p d p' :
  allocateDevice fuel p = Returns (d, p') ->
  numDevices p > 0 /\
  exists busy', lockedScan p = Found d busy' /\ p' = withFlags p busy'.
Proof.
  intros H.
  destruct (Z.gtb_spec (numDevices p) 0) as [Hpos|Hle];
    [|rewrite allocateDevice_empty in H by lia; discriminate].
  split; [lia|]. rewrite allocateDevice_positive in H by lia.
  induction fuel as [|fuel IH]; simpl in H; [discriminate|].
  destruct (lockedScan p) as [d0 busy0| |]; [|now apply IH|discriminate].
  injection H as <- <-. eauto.
Qed.

Lemma allocateDevice_Returns_spec fuel p d p' :
  wellSized p ->
  allocateDevice fuel p = Returns (d, p') ->
  0 <= d < numDevices p /\
  busyDevices p !! Z.to_nat d = Some false /\
  (forall m, 0 <= m < d -> busyDevices p !! Z.to_nat m = Some true) /\
  p' = withFlags p (<[Z.to_nat d := true]> (busyDevices p)).
Proof.
  intros Hwf H. apply allocateDevice_Returns_inv in H as (_ & busy' & Hscan & ->).
  pose proof (lockedScan_spec p Hwf) as Hspec. rewrite Hscan in Hspec.
  destruct Hspec as (Hd & Hwas & -> & Hlow). auto.
Qed.

Lemma allocateDevice_free_Returns fuel p m :
  wellSized p ->
  busyDevices p !! m = Some false ->
  exists d,
    allocateDevice (S fuel) p
    = Returns (d, withFlags p (<[Z.to_nat d := true]> (busyDevices p))) /\
    0 <= d <= Z.of_nat m.
Proof.
  intros Hwf Hfree.
  destruct (lockedScan_finds p m Hwf Hfree) as (d & busy' & Hscan).
  pose proof (lockedScan_spec p Hwf) as Hspec. rewrite Hscan in Hspec.
  destruct Hspec as (Hd & Hwas & -> & Hlow).
  exists d. rewrite allocateDevice_positive
    by (eapply wellSized_free_positive; eassumption).
  split; [now apply poll_found|]. split; [lia|].
  destruct (Z.le_gt_cases d (Z.of_nat m)) as [|Hgt]; [assumption|].
  specialize (Hlow (Z.of_nat m) ltac:(lia)). rewrite Nat2Z.id in Hlow. congruence.
Qed.

Lemma withFlags_same p : withFlags p (busyDevices p) = p.
Proof. now destruct p. Qed.

Lemma freeDevice_in_range device p :
  0 <= device < Z.of_nat (length (busyDevices p)) ->
  freeDevice device p
  = Returns (withFlags p (<[Z.to_nat device := false]> (busyDevices p))).
Proof.
  intros Hrange. unfold freeDevice.
  destruct (Z.leb_spec 0 device); [|lia].
  destruct (Z.ltb_spec device (Z.of_nat (length (busyDevices p)))); [reflexivity|lia].
Qed.

Lemma freeDevice_out_of_range device p :
  ~ 0 <= device < Z.of_nat (length (busyDevices p)) ->
  freeDevice device p = Undefined.
Proof.
  intros Hrange. unfold freeDevice.
  destruct (Z.leb_spec 0 device); [|reflexivity].
  destruct (Z.ltb_spec device (Z.of_nat (length (busyDevices p)))); [lia|reflexivity].
Qed.

(** X1.  Allocating a device and freeing the returned id restores the
    pool: on a pool with one flag per device and a free device,
    [allocateDevice] returns some [(device, p')] and [freeDevice device p']
    returns the pool the allocation started from. *)
Theorem allocate_then_free_restores (fuel : nat) (p : Pool) :
  wellSized p ->
  (exists m, busyDevices p !! m = Some false) ->
  exists device p',
    allocateDevice (S fuel) p = Returns (device, p') /\
    freeDevice device p' = Returns p.
Proof.
  intros Hwf [m Hfree].
  destruct (allocateDevice_free_Returns fuel p m Hwf Hfree) as (d & Halloc & Hd).
  pose proof (allocateDevice_Returns_spec _ _ _ _ Hwf Halloc) as (Hrange & Hwas & _ & _).
  eexists d, _. split; [exact Halloc|].
  rewrite freeDevice_in_range
    by (simpl; rewrite length_insert; unfold wellSized in Hwf; lia).
  simpl. f_equal. unfold withFlags. simpl.
  rewrite list_insert_insert_eq, list_insert_id by assumption.
  now destruct p.
Qed.

Lemma allocate_then_free_restores_witness :
  exists device p',
    allocateDevice 1 {| numDevices := 3; busyDevices := [true; false; true] |}
    = Returns (device, p') /\
    freeDevice device p'
    = Returns {| numDevices := 3; busyDevices := [true; false; true] |}.
Proof.
  apply (allocate_then_free_restores 0
           {| numDevices := 3; busyDevices := [true; false; true] |}).
  - reflexivity.
  - exists 1%nat. reflexivity.
Defined.

(** X2.  On a pool of positive size with one flag per device,
    [allocateDevice] keeps polling, whatever the number of polls, exactly
    when every device is busy; nothing in the call ends the wait. *)
Theorem allocateDevice_spins_iff_all_busy (p : Pool) :
  wellSized p ->
  numDevices p > 0 ->
  ((forall fuel, allocateDevice fuel p = Spinning) <->
   (forall m, 0 <= m < numDevices p -> busyDevices p !! Z.to_nat m = Some true)).
Proof.
  intros Hwf Hpos. pose proof (lockedScan_spec p Hwf) as Hspec. split.
  - intros Hspin m Hm. specialize (Hspin 1%nat).
    rewrite allocateDevice_positive in Hspin by assumption. simpl in Hspin.
    destruct (lockedScan p) as [d busy'| |]; [discriminate| |contradiction].
    now apply Hspec.
  - intros Hbusy fuel. rewrite allocateDevice_positive by assumption.
    assert (Hscan : lockedScan p = NoneFree).
    { destruct (lockedScan p) as [d busy'| |]; [|reflexivity|contradiction].
      destruct Hspec as (Hd & Hwas & _). rewrite (Hbusy d Hd) in Hwas. discriminate. }
    induction fuel as [|fuel IH]; simpl; [reflexivity|]. now rewrite Hscan.
Qed.

Lemma allocateDevice_spins_iff_all_busy_witness :
  allocateDevice 7 {| numDevices := 2; busyDevices := [true; true] |} = Spinning.
Proof.
  apply (proj2 (allocateDevice_spins_iff_all_busy
                  {| numDevices := 2; busyDevices := [true; true] |} eq_refl eq_refl)).
  intros m Hm. simpl in Hm.
  assert (m = 0 \/ m = 1) as [-> | ->] by lia; reflexivity.
Defined.

(** X3.  [freeDevice] checks no ownership and is idempotent: freeing the
    same id again returns the same pool, and freeing a device whose flag is
    already clear returns the pool unchanged. *)
Theorem freeDevice_idempotent (device : Z) (p p' : Pool) :
  freeDevice device p = Returns p' ->
  freeDevice device p' = Returns p' /\
  (busyDevices p !! Z.to_nat device = Some false -> p' = p).
Proof.
  intros Hfree.
  destruct (decide (0 <= device < Z.of_nat (length (busyDevices p)))) as [Hrange|Hrange];
    [|rewrite freeDevice_out_of_range in Hfree by assumption; discriminate].
  rewrite freeDevice_in_range in Hfree by assumption. injection Hfree as <-. split.
  - rewrite freeDevice_in_range by (simpl; rewrite length_insert; assumption).
    simpl. unfold withFlags. simpl. now rewrite list_insert_insert_eq.
  - intros Hclear. unfold withFlags. rewrite list_insert_id by assumption.
    now destruct p.
Qed.

Lemma freeDevice_idempotent_witness :
  freeDevice 1 {| numDevices := 2; busyDevices := [true; false] |}
  = Returns {| numDevices := 2; busyDevices := [true; false] |} /\
  ([true; true] !! Z.to_nat 1 = Some false ->
   {| numDevices := 2; busyDevices := [true; false] |}
   = {| numDevices := 2; busyDevices := [true; true] |}).
Proof.
  apply (freeDevice_idempotent 1 {| numDevices := 2; busyDevices := [true; true] |}).
  reflexivity.
Defined.

(** X4.  Two [freeDevice] calls commute: freeing [first] and then
    [second] has the same outcome as freeing them in the other order, also
    when one of the ids lies outside the flag array. *)
Theorem freeDevice_commutes (first second : Z) (p : Pool) :
  (p1 ← freeDevice first p; freeDevice second p1)
  = (p2 ← freeDevice second p; freeDevice first p2).
Proof.
  unfold_bind.
  destruct (decide (0 <= first < Z.of_nat (length (busyDevices p)))) as [H1|H1];
    destruct (decide (0 <= second < Z.of_nat (length (busyDevices p)))) as [H2|H2].
  - rewrite (freeDevice_in_range first p H1), (freeDevice_in_range second p H2).
    cbn [bind].
    rewrite !freeDevice_in_range by (simpl; rewrite length_insert; assumption).
    f_equal. unfold withFlags. simpl. f_equal.
    destruct (decide (first = second)) as [->|Hne]; [reflexivity|].
    apply list_insert_insert_ne. lia.
  - rewrite (freeDevice_in_range first p H1), (freeDevice_out_of_range second p H2).
    cbn [bind]. apply freeDevice_out_of_range. simpl. now rewrite length_insert.
  - rewrite (freeDevice_out_of_range first p H1), (freeDevice_in_range second p H2).
    cbn [bind]. symmetry. apply freeDevice_out_of_range. simpl. now rewrite length_insert.
  - now rewrite (freeDevice_out_of_range first p H1), (freeDevice_out_of_range second p H2).
Qed.

(** X5.  As long as nothing is freed, successive allocations return
    strictly increasing ids: if [allocateDevice] returns [first] and the
    next call, on the resulting pool, returns [second], then
    [first < second], and afterwards both flags are set while every other
    flag is as before the two calls. *)
Theorem successive_allocations_increase (fuel fuel' : nat) (p p1 p2 : Pool)
    (first second : Z) :
  wellSized p ->
  allocateDevice fuel p = Returns (first, p1) ->
  allocateDevice fuel' p1 = Returns (second, p2) ->
  first < second /\
  busyDevices p2 !! Z.to_nat first = Some true /\
  busyDevices p2 !! Z.to_nat second = Some true /\
  (forall m, m <> Z.to_nat first -> m <> Z.to_nat second ->
             busyDevices p2 !! m = busyDevices p !! m).
Proof.
  intros Hwf H1 H2.
  pose proof (allocateDevice_Returns_spec _ _ _ _ Hwf H1) as (Hr1 & Hwas1 & Hlow1 & ->).
  assert (Hwf1 : wellSized (withFlags p (<[Z.to_nat first := true]> (busyDevices p))))
    by (apply wellSized_withFlags; [assumption|apply length_insert]).
  pose proof (allocateDevice_Returns_spec _ _ _ _ Hwf1 H2) as (Hr2 & Hwas2 & _ & ->).
  simpl in *.
  assert (Hne : first <> second).
  { intros ->. rewrite list_lookup_insert_eq in Hwas2; [discriminate|].
    now apply lookup_lt_Some in Hwas1. }
  rewrite list_lookup_insert_ne in Hwas2 by lia.
  assert (Hlt : first < second).
  { destruct (Z.lt_ge_cases first second) as [|Hge]; [assumption|].
    specialize (Hlow1 second ltac:(lia)). congruence. }
  split; [assumption|].
  apply lookup_lt_Some in Hwas1 as Hlen1. apply lookup_lt_Some in Hwas2 as Hlen2.
  split; [|split].
  - rewrite list_lookup_insert_ne by lia. now apply list_lookup_insert_eq.
  - apply list_lookup_insert_eq. now rewrite length_insert.
  - intros m Hm1 Hm2. now rewrite !list_lookup_insert_ne by congruence.
Qed.

Lemma successive_allocations_increase_witness :
  0 < 2 /\
  [true; true; true; false] !! Z.to_nat 0 = Some true /\
  [true; true; true; false] !! Z.to_nat 2 = Some true /\
  (forall m, m <> Z.to_nat 0 -> m <> Z.to_nat 2 ->
             [true; true; true; false] !! m = [false; true; false; false] !! m).
Proof.
  apply (successive_allocations_increase 1 1
           {| numDevices := 4; busyDevices := [false; true; false; false] |}
           {| numDevices := 4; busyDevices := [true; true; false; false] |}
           {| numDevices := 4; busyDevices := [true; true; true; false] |} 0 2);
    reflexivity.
Defined.

(** X7.  After [freeDevice(device)] the next [allocateDevice] returns
    without waiting, and the id it returns is at most [device]; it is
    [device] itself when every lower device is busy, as it is for a caller
    that waited on a full pool. *)
Theorem free_then_allocate (fuel : nat) (device : Z) (p : Pool) :
  wellSized p ->
  0 <= device < numDevices p ->
  exists p' next p'',
    freeDevice device p = Returns p' /\
    allocateDevice (S fuel) p' = Returns (next, p'') /\
    0 <= next <= device /\
    ((forall m, 0 <= m < device -> busyDevices p !! Z.to_nat m = Some true) ->
     next = device).
Proof.
  intros Hwf Hrange. unfold wellSized in Hwf.
  set (p' := withFlags p (<[Z.to_nat device := false]> (busyDevices p))).
  assert (Hwf' : wellSized p')
    by (apply wellSized_withFlags; [assumption|apply length_insert]).
  assert (Hclear : busyDevices p' !! Z.to_nat device = Some false)
    by (apply list_lookup_insert_eq; lia).
  destruct (allocateDevice_free_Returns fuel p' _ Hwf' Hclear) as (next & Halloc & Hnext).
  exists p', next, (withFlags p' (<[Z.to_nat next := true]> (busyDevices p'))).
  split; [apply freeDevice_in_range; lia|]. split; [exact Halloc|].
  split; [lia|]. intros Hlow.
  pose proof (allocateDevice_Returns_spec _ _ _ _ Hwf' Halloc) as (_ & Hwas & _ & _).
  destruct (Z.eq_dec next device) as [|Hne]; [assumption|].
  simpl in Hwas. rewrite list_lookup_insert_ne in Hwas by lia.
  rewrite (Hlow next) in Hwas by lia. discriminate.
Qed.

Lemma free_then_allocate_witness :
  exists p' next p'',
    freeDevice 1 {| numDevices := 3; busyDevices := [true; true; true] |} = Returns p' /\
    allocateDevice 1 p' = Returns (next, p'') /\
    0 <= next <= 1 /\
    ((forall m, 0 <= m < 1 -> [true; true; true] !! Z.to_nat m = Some true) ->
     next = 1).
Proof.
  apply (free_then_allocate 0 1 {| numDevices := 3; busyDevices := [true; true; true] |}).
  - reflexivity.
  - simpl. lia.
Defined.

(** *** Leases and busy flags *)

Lemma countBusy_zero busy : countBusy busy = 0%nat -> busy = replicate (length busy) false.
Proof.
  unfold countBusy. induction busy as [|b busy IH]; [reflexivity|].
  destruct b; simpl; [discriminate|]. intros H. f_equal. now apply IH.
Qed.

Lemma run_size K es s :
  run (initial (Z.of_nat K)) es s ->
  numDevices (pool s) = Z.of_nat K /\ length (busyDevices (pool s)) = K.
Proof.
  intros Hrun. remember (initial (Z.of_nat K)) as s0 eqn:Hs0.
  induction Hrun as [|s0 e s' es s'' Hrun IH Hstep].
  - subst. simpl. rewrite length_replicate. lia.
  - specialize (IH Hs0).
    inversion Hstep as [? ? busy ? ? Hscan| |? ? ? ? ? Hfree]; subst.
    + simpl. split; [tauto|].
      assert (Hwf : wellSized (pool s')) by (unfold wellSized; lia).
      pose proof (lockedScan_spec (pool s') Hwf) as Hspec. rewrite Hscan in Hspec.
      destruct Hspec as (_ & _ & -> & _). rewrite length_insert. tauto.
    + assumption.
    + unfold freeDevice in Hfree. destruct (_ && _); [|discriminate].
      injection Hfree as <-. simpl. rewrite length_insert. assumption.
Qed.

(** X6.  No device leaks: in every state that callers sharing a pool of
    [K] devices can reach, the number of busy flags equals the number of
    devices held, and once every held device has been freed the pool is
    again the pool it was created as, with all [K] flags clear. *)
Theorem no_device_leak (K : nat) (es : list Event) (s : System) :
  run (initial (Z.of_nat K)) es s ->
  countBusy (busyDevices (pool s)) = length (leases s) /\
  (leases s = [] -> pool s = createDeviceTable (Z.of_nat K)).
Proof.
  intros Hrun.
  pose proof (run_consistent _ _ _ (initial_consistent K) Hrun) as Hs.
  pose proof (run_size K es s Hrun) as [Hnum Hlen].
  split; [apply (consistent_count s Hs)|].
  intros Hnone. pose proof (consistent_count s Hs) as Hcount.
  rewrite Hnone in Hcount. apply countBusy_zero in Hcount.
  destruct (pool s) as [n busy]. simpl in *. subst n.
  unfold createDeviceTable. f_equal. rewrite Nat2Z.id. now rewrite Hlen in Hcount.
Qed.

Lemma no_device_leak_witness :
  countBusy [false; false] = 0%nat /\
  (([] : list (nat * Z)) = [] ->
   {| numDevices := 2; busyDevices := [false; false] |} = createDeviceTable 2).
Proof.
  apply (no_device_leak 2 [Allocated 7 0; Allocated 8 1; Freed 7 0; Freed 8 1]
           {| pool := {| numDevices := 2; busyDevices := [false; false] |};
              leases := ([] : list (nat * Z)) |}).
  apply (run_step _ (Freed 8 1)
           {| pool := {| numDevices := 2; busyDevices := [false; true] |};
              leases := [(8%nat, 1)] |} [Allocated 7 0; Allocated 8 1; Freed 7 0]).
  - apply (run_step _ (Freed 7 0)
             {| pool := {| numDevices := 2; busyDevices := [true; true] |};
                leases := [(8%nat, 1); (7%nat, 0)] |} [Allocated 7 0; Allocated 8 1]).
    + apply (run_step _ (Allocated 8 1)
               {| pool := {| numDevices := 2; busyDevices := [true; false] |};
                  leases := [(7%nat, 0)] |} [Allocated 7 0]).
      * apply (run_step _ (Allocated 7 0) (initial 2) []); [apply run_nil|].
        apply (step_allocated 7 0 [true; false] (initial 2)); reflexivity.
      * apply (step_allocated 8 1 [true; true]
                 {| pool := {| numDevices := 2; busyDevices := [true; false] |};
                    leases := [(7%nat, 0)] |}); reflexivity.
    + apply (step_freed 7 0 {| numDevices := 2; busyDevices := [false; true] |}
               {| pool := {| numDevices := 2; busyDevices := [true; true] |};
                  leases := [(8%nat, 1); (7%nat, 0)] |}); [|reflexivity].
      simpl. auto.
  - apply (step_freed 8 1 {| numDevices := 2; busyDevices := [false; false] |}
             {| pool := {| numDevices := 2; busyDevices := [false; true] |};
                leases := [(8%nat, 1)] |}); [|reflexivity].
    simpl. auto.
Defined.

End DevicePoolComposition.

(** * Further properties of the self-energy vertex *)

Section VertexComposition.

Import Vertex.

Context {arithmetic : Arithmetic}.
Variable split : Index -> list Index.

Lemma unmatched_skipsIncoming blocks (u : InteractionAmplitude) :
  matchesIncoming blocks u = false -> skipsIncoming blocks u = true.
Proof.
  unfold matchesIncoming, skipsIncoming. intros H.
  apply andb_false_iff in H as [-> | ->]; simpl; [reflexivity|].
  now rewrite orb_true_r.
Qed.

Lemma unmatched_skipsOutgoing blocks (u : InteractionAmplitude) :
  matchesOutgoing blocks u = false -> skipsOutgoing blocks u = true.
Proof.
  unfold matchesOutgoing, skipsOutgoing. intros H.
  apply andb_false_iff in H as [-> | ->]; simpl; [reflexivity|].
  now rewrite orb_true_r.
Qed.

Lemma outgoingLoop_matches chi multiplier kIndex blocks incoming uRight : forall vertex,
  outgoingLoop chi multiplier kIndex blocks incoming vertex
    (List.filter (matchesOutgoing blocks) uRight)
  = outgoingLoop chi multiplier kIndex blocks incoming vertex uRight.
Proof.
  unfold outgoingLoop.
  induction uRight as [|u uRight IH]; intros vertex; simpl; [reflexivity|].
  destruct (matchesOutgoing blocks u) eqn:Hu; simpl.
  - apply IH.
  - rewrite (unmatched_skipsOutgoing blocks u Hu). apply IH.
Qed.

Lemma incomingLoop_matches chi multiplier kIndex blocks uLeft uRight : forall vertex,
  incomingLoop chi multiplier kIndex blocks vertex
    (List.filter (matchesIncoming blocks) uLeft)
    (List.filter (matchesOutgoing blocks) uRight)
  = incomingLoop chi multiplier kIndex blocks vertex uLeft uRight.
Proof.
  unfold incomingLoop.
  induction uLeft as [|u uLeft IH]; intros vertex; simpl; [reflexivity|].
  destruct (matchesIncoming blocks u) eqn:Hu; simpl.
  - rewrite outgoingLoop_matches. apply IH.
  - rewrite (unmatched_skipsIncoming blocks u Hu). apply IH.
Qed.

(** X8.  Only amplitudes whose operator legs match the block subindices
    of the Index contribute: the outcome of the main algorithm is the same
    as with every incoming amplitude removed whose second annihilation or
    first creation leg differs from the fourth or third block, and every
    outgoing amplitude removed whose first annihilation or second creation
    leg differs from the first or second block. *)
Theorem unmatched_legs_skipped (vertex : list complex) (index : Index)
    (chi : Susceptibility) (uLeft uRight : list InteractionAmplitude) (multiplier : real) :
  calculateSelfEnergyVertexMainAlgorithm split vertex index chi uLeft uRight multiplier
  = calculateSelfEnergyVertexMainAlgorithm split vertex index chi
      (List.filter (matchesIncoming (intraBlockIndicesOf (split index))) uLeft)
      (List.filter (matchesOutgoing (intraBlockIndicesOf (split index))) uRight)
      multiplier.
Proof.
  unfold calculateSelfEnergyVertexMainAlgorithm; unfold_bind.
  destruct (TBTKAssert _ _) as [[]| | |]; try reflexivity. cbn [bind].
  destruct (checkBlocks _ _) as [[]| | |]; try reflexivity. cbn [bind].
  f_equal. now rewrite incomingLoop_matches.
Qed.

Lemma outgoingLoop_all_skipped chi multiplier kIndex blocks incoming uRight :
  Forall (fun u => skipsOutgoing blocks u = true) uRight ->
  forall vertex,
    outgoingLoop chi multiplier kIndex blocks incoming vertex uRight = vertex.
Proof.
  unfold outgoingLoop. induction 1 as [|u uRight Hu _ IH]; intros vertex; simpl.
  - reflexivity.
  - rewrite Hu. apply IH.
Qed.

Lemma incomingLoop_nothing_passes chi multiplier kIndex blocks uLeft uRight :
  Forall (fun u => skipsIncoming blocks u = true) uLeft \/
  Forall (fun u => skipsOutgoing blocks u = true) uRight ->
  forall vertex,
    incomingLoop chi multiplier kIndex blocks vertex uLeft uRight = vertex.
Proof.
  unfold incomingLoop. intros [HL|HR].
  - induction HL as [|u uLeft Hu _ IH]; intros vertex; simpl; [reflexivity|].
    rewrite Hu. apply IH.
  - induction uLeft as [|u uLeft IH]; intros vertex; simpl; [reflexivity|].
    destruct (skipsIncoming blocks u); [apply IH|].
    rewrite outgoingLoop_all_skipped by assumption. apply IH.
Qed.

Lemma zeroVertex_replicate numEnergies :
  zeroVertex numEnergies = replicate numEnergies czero.
Proof.
  unfold zeroVertex. induction numEnergies as [|n IH]; [reflexivity|].
  simpl. rewrite IH. clear IH.
  induction n as [|n IH]; [reflexivity|]. simpl. now rewrite IH.
Qed.

(** X9.  When no pair of amplitudes passes the two filters - every
    incoming amplitude is skipped, or every outgoing one is, as with an
    empty list - the main algorithm returns the vector it was given
    unchanged for a well-shaped Index, and [calculateSelfEnergyVertex]
    returns [getResolution()] zeros for a susceptibility on real energies. *)
Theorem nothing_passes_returns_input (solver : ElectronFluctuationVertex)
    (vertex : list complex) (index : Index) (chi : Susceptibility)
    (uLeft uRight : list InteractionAmplitude) (multiplier : real) :
  wellShaped (split index) = true ->
  (Forall (fun u => skipsIncoming (intraBlockIndicesOf (split index)) u = true) uLeft \/
   Forall (fun u => skipsOutgoing (intraBlockIndicesOf (split index)) u = true) uRight ->
   calculateSelfEnergyVertexMainAlgorithm split vertex index chi uLeft uRight multiplier
   = Returns vertex) /\
  (Forall (fun u => skipsIncoming (intraBlockIndicesOf (split index)) u = true)
     (leftInteraction solver) \/
   Forall (fun u => skipsOutgoing (intraBlockIndicesOf (split index)) u = true)
     (rightInteraction solver) ->
   getEnergyType (susceptibility solver) = Real ->
   calculateSelfEnergyVertex split solver index
   = Returns (replicate (getResolution (susceptibility solver)) czero)).
Proof.
  intros Hshape. split.
  - intros Hnone. rewrite (mainAlgorithm_wellShaped split) by assumption.
    f_equal. now apply incomingLoop_nothing_passes.
  - intros Hnone Hreal. unfold calculateSelfEnergyVertex; unfold_bind.
    rewrite Hreal. cbn [bind].
    rewrite (mainAlgorithm_wellShaped split) by assumption.
    f_equal. rewrite incomingLoop_nothing_passes by assumption.
    apply zeroVertex_replicate.
Qed.

(** X10.  The main algorithm adds onto the vector it is given, so a run
    over [uLeft ++ uLeft'] is a run over [uLeft] followed by a run over
    [uLeft'] on the vector the first run returns; a failed arity check
    ends both in the same diagnostic. *)
Theorem accumulation_resumes (vertex : list complex) (index : Index)
    (chi : Susceptibility) (uLeft uLeft' uRight : list InteractionAmplitude)
    (multiplier : real) :
  calculateSelfEnergyVertexMainAlgorithm split vertex index chi
    (uLeft ++ uLeft') uRight multiplier
  = (partial ←
       calculateSelfEnergyVertexMainAlgorithm split vertex index chi uLeft uRight multiplier;
     calculateSelfEnergyVertexMainAlgorithm split partial index chi uLeft' uRight multiplier).
Proof.
  unfold calculateSelfEnergyVertexMainAlgorithm; unfold_bind.
  destruct (TBTKAssert _ _) as [[]| | |]; try reflexivity. cbn [bind].
  destruct (checkBlocks _ _) as [[]| | |]; try reflexivity. cbn [bind].
  f_equal. unfold incomingLoop. apply fold_left_app.
Qed.

(** X11.  The subindex diagnostic names the first offending component:
    for an Index of 5 components, if component [k] (counted from 1 after
    the momentum component) is the first of the last four whose number of
    subindices is not 1, the main algorithm ends with the diagnostic for
    component [k] and that number. *)
Theorem first_offending_block (vertex : list complex) (index : Index)
    (chi : Susceptibility) (uLeft uRight : list InteractionAmplitude) (multiplier : real)
    (k : nat) :
  length (split index) = 5%nat ->
  (1 <= k <= 4)%nat ->
  length (nth k (split index) []) <> 1%nat ->
  (forall j, (1 <= j < k)%nat -> length (nth j (split index) []) = 1%nat) ->
  calculateSelfEnergyVertexMainAlgorithm split vertex index chi uLeft uRight multiplier
  = Exits (SubindexCount k (length (nth k (split index) []))).
Proof.
  intros Hlen Hk Hbad Hlow.
  unfold calculateSelfEnergyVertexMainAlgorithm; unfold_bind.
  rewrite Hlen. cbn [Nat.eqb TBTKAssert bind].
  unfold intraBlockIndicesOf. cbn [checkBlocks]. unfold_bind.
  apply Nat.eqb_neq in Hbad.
  assert (k = 1 \/ k = 2 \/ k = 3 \/ k = 4)%nat as [-> | [-> | [-> | ->]]] by lia.
  - rewrite Hbad. reflexivity.
  - rewrite (proj2 (Nat.eqb_eq _ _) (Hlow 1%nat ltac:(lia))), Hbad. reflexivity.
  - rewrite (proj2 (Nat.eqb_eq _ _) (Hlow 1%nat ltac:(lia))),
            (proj2 (Nat.eqb_eq _ _) (Hlow 2%nat ltac:(lia))), Hbad. reflexivity.
  - rewrite (proj2 (Nat.eqb_eq _ _) (Hlow 1%nat ltac:(lia))),
            (proj2 (Nat.eqb_eq _ _) (Hlow 2%nat ltac:(lia))),
            (proj2 (Nat.eqb_eq _ _) (Hlow 3%nat ltac:(lia))), Hbad. reflexivity.
Qed.

(** *** Which susceptibility data are read *)

Lemma accumulate_ext (vertex : list complex) : forall (n : N) (f g : N -> complex),
  (forall i, (i < length vertex)%nat -> f (n + N.of_nat i)%N = g (n + N.of_nat i)%N) ->
  accumulate n vertex f = accumulate n vertex g.
Proof.
  induction vertex as [|z vertex IH]; intros n f g H; simpl; [reflexivity|].
  f_equal.
  - f_equal. specialize (H 0%nat ltac:(simpl; lia)). simpl in H.
    now rewrite N.add_0_r in H.
  - apply IH. intros i Hi. specialize (H (S i) ltac:(simpl; lia)).
    replace (N.succ n + N.of_nat i)%N with (n + N.of_nat (S i))%N by lia. exact H.
Qed.

Lemma outgoingLoop_length chi multiplier kIndex blocks incoming uRight : forall vertex,
  length (outgoingLoop chi multiplier kIndex blocks incoming vertex uRight)
  = length vertex.
Proof.
  intros vertex. rewrite outgoingLoop_contributions. apply fold_accumulate_length.
Qed.

Lemma contribution_sameWindow chi chi' multiplier kIndex (size : nat) incoming outgoing
    (vertex : list complex) :
  sameWindow chi chi' kIndex size incoming outgoing ->
  length vertex = size ->
  accumulate 0%N vertex (contribution chi multiplier kIndex incoming outgoing)
  = accumulate 0%N vertex (contribution chi' multiplier kIndex incoming outgoing).
Proof.
  intros [Hoffset Hdata] Hlen. apply accumulate_ext. intros i Hi.
  unfold contribution. cbv zeta. fold (pairComponents kIndex incoming outgoing).
  rewrite N.add_0_l, <- Hoffset. now rewrite Hdata by lia.
Qed.

Lemma outgoingLoop_ext chi chi' multiplier kIndex blocks incoming uRight (size : nat) :
  (forall outgoing,
     In outgoing uRight ->
     skipsOutgoing blocks outgoing = false ->
     sameWindow chi chi' kIndex size incoming outgoing) ->
  forall vertex,
    length vertex = size ->
    outgoingLoop chi multiplier kIndex blocks incoming vertex uRight
    = outgoingLoop chi' multiplier kIndex blocks incoming vertex uRight.
Proof.
  unfold outgoingLoop.
  induction uRight as [|u uRight IH]; intros Hsame vertex Hlen; simpl; [reflexivity|].
  assert (Hrest : forall outgoing,
            In outgoing uRight ->
            skipsOutgoing blocks outgoing = false ->
            sameWindow chi chi' kIndex size incoming outgoing)
    by (intros outgoing Hin; apply Hsame; now right).
  destruct (skipsOutgoing blocks u) eqn:Hu; [now apply IH|].
  rewrite (contribution_sameWindow chi chi' multiplier kIndex size incoming u vertex)
    by first [assumption|apply Hsame; [now left|assumption]].
  apply IH; [assumption|]. now rewrite accumulate_length.
Qed.

Lemma incomingLoop_ext chi chi' multiplier kIndex blocks uLeft uRight (size : nat) :
  (forall incoming outgoing,
     In incoming uLeft ->
     In outgoing uRight ->
     skipsIncoming blocks incoming = false ->
     skipsOutgoing blocks outgoing = false ->
     sameWindow chi chi' kIndex size incoming outgoing) ->
  forall vertex,
    length vertex = size ->
    incomingLoop chi multiplier kIndex blocks vertex uLeft uRight
    = incomingLoop chi' multiplier kIndex blocks vertex uLeft uRight.
Proof.
  unfold incomingLoop.
  induction uLeft as [|u uLeft IH]; intros Hsame vertex Hlen; simpl; [reflexivity|].
  assert (Hrest : forall incoming outgoing,
            In incoming uLeft ->
            In outgoing uRight ->
            skipsIncoming blocks incoming = false ->
            skipsOutgoing blocks outgoing = false ->
            sameWindow chi chi' kIndex size incoming outgoing)
    by (intros incoming outgoing Hin; apply Hsame; now right).
  destruct (skipsIncoming blocks u) eqn:Hu; [now apply IH|].
  rewrite (outgoingLoop_ext chi chi' multiplier kIndex blocks u uRight size)
    by first [assumption|intros outgoing Hin Hout; apply Hsame; auto; now left].
  apply IH; [assumption|]. now rewrite outgoingLoop_length.
Qed.

(** X16.  The main algorithm reads a susceptibility only through the
    pairs of amplitudes that pass the two filters: for such a pair it
    looks up the offset of the compound Index
    [{kIndex, {c0_o}, {a1_o}, {c1_i}, {a0_i}}] and reads as many data
    entries from that offset as the vector has.  Two susceptibilities
    that agree on these offsets and on these windows give the same
    outcome, whatever offsets they give to other Indices and whatever
    they store elsewhere. *)
Theorem data_read_window (vertex : list complex) (index : Index)
    (chi chi' : Susceptibility) (uLeft uRight : list InteractionAmplitude)
    (multiplier : real) :
  (forall incoming outgoing,
     In incoming uLeft ->
     In outgoing uRight ->
     skipsIncoming (intraBlockIndicesOf (split index)) incoming = false ->
     skipsOutgoing (intraBlockIndicesOf (split index)) outgoing = false ->
     getOffset chi (pairComponents (kIndexOf (split index)) incoming outgoing)
     = getOffset chi' (pairComponents (kIndexOf (split index)) incoming outgoing) /\
     forall n, (n < length vertex)%nat ->
       getData chi
         (uadd (getOffset chi (pairComponents (kIndexOf (split index)) incoming outgoing))
               (N.of_nat n))
       = getData chi'
           (uadd (getOffset chi (pairComponents (kIndexOf (split index)) incoming outgoing))
                 (N.of_nat n))) ->
  calculateSelfEnergyVertexMainAlgorithm split vertex index chi uLeft uRight multiplier
  = calculateSelfEnergyVertexMainAlgorithm split vertex index chi' uLeft uRight multiplier.
Proof.
  intros Hsame.
  unfold calculateSelfEnergyVertexMainAlgorithm; unfold_bind.
  destruct (TBTKAssert _ _) as [[]| | |]; try reflexivity. cbn [bind].
  destruct (checkBlocks _ _) as [[]| | |]; try reflexivity. cbn [bind].
  f_equal. now apply (incomingLoop_ext chi chi' _ _ _ _ _ (length vertex)).
Qed.

End VertexComposition.

(** * Worked examples, continued *)

Section VertexCompositionExamples.

Import Vertex Examples.

Lemma nothing_passes_returns_input_witness :
  calculateSelfEnergyVertexMainAlgorithm (arithmetic := gaussian) splitAtSeparator
    [(7, 1); (0, 2)] exampleIndex (exactSusceptibility Real) exactLeft [] 2
  = Returns [(7, 1); (0, 2)] /\
  calculateSelfEnergyVertex (arithmetic := gaussian) splitAtSeparator
    {| susceptibility := exactSusceptibility Real;
       leftInteraction := [exactAmplitude (0, 0) 3 0 0 4; exactAmplitude (5, 0) 0 0 0 0];
       rightInteraction := exactRight;
       multiplier := 2 |} exampleIndex
  = Returns [(0, 0); (0, 0)].
Proof.
  split.
  - apply (proj1 (nothing_passes_returns_input (arithmetic := gaussian) splitAtSeparator
             (exactSolver Real) [(7, 1); (0, 2)] exampleIndex (exactSusceptibility Real)
             exactLeft [] 2 eq_refl)).
    right. constructor.
  - apply (proj2 (nothing_passes_returns_input (arithmetic := gaussian) splitAtSeparator
             {| susceptibility := exactSusceptibility Real;
                leftInteraction :=
                  [exactAmplitude (0, 0) 3 0 0 4; exactAmplitude (5, 0) 0 0 0 0];
                rightInteraction := exactRight;
                multiplier := 2 |}
             [] exampleIndex (exactSusceptibility Real) [] [] 2 eq_refl)).
    + left. repeat constructor.
    + reflexivity.
Defined.

Lemma first_offending_block_witness :
  calculateSelfEnergyVertexMainAlgorithm (arithmetic := gaussian) splitAtSeparator
    [(0, 0)] [0; -1; 1; -1; 2; 5; 6; -1; -1; 4] (exactSusceptibility Real)
    exactLeft exactRight 2
  = Exits (SubindexCount 2 3).
Proof.
  apply (first_offending_block (arithmetic := gaussian) splitAtSeparator
           [(0, 0)] [0; -1; 1; -1; 2; 5; 6; -1; -1; 4] (exactSusceptibility Real)
           exactLeft exactRight 2 2).
  - reflexivity.
  - lia.
  - simpl. lia.
  - intros j Hj. assert (j = 1)%nat as -> by lia. reflexivity.
Defined.

Lemma data_read_window_witness :
  calculateSelfEnergyVertexMainAlgorithm (arithmetic := gaussian) splitAtSeparator
    [(0, 0); (0, 0)] exampleIndex (pairedSusceptibility (0, 0) 100) exactLeft exactRight 2
  = calculateSelfEnergyVertexMainAlgorithm (arithmetic := gaussian) splitAtSeparator
      [(0, 0); (0, 0)] exampleIndex (pairedSusceptibility (99, 99) 200)
      exactLeft exactRight 2.
Proof.
  apply (data_read_window (arithmetic := gaussian) splitAtSeparator).
  intros incoming outgoing [<- | [<- | [<- | []]]] [<- | [<- | []]] Hincoming Houtgoing;
    try discriminate;
    (split; [reflexivity|]); intros n Hn; simpl in Hn;
    assert (n = 0 \/ n = 1)%nat as [-> | ->] by lia; reflexivity.
Defined.

End VertexCompositionExamples.

(** * Energy units *)

Section EnergyUnits.

Import Quantity.

Example getUnit_is_case_sensitive :
  getUnit "MeV" = Value MeV /\ getUnit "meV" = Value meV /\
  getUnit "mev" = Exited (UnknownUnitString "mev").
Proof. repeat split; vm_compute; reflexivity. Qed.

Lemma stringToUnit_entries (str : string) (unit : Unit) :
  stringToUnit !! str = Some unit ->
  In (str, unit)
    [("GeV", GeV); ("MeV", MeV); ("keV", keV); ("eV", eV);
     ("meV", meV); ("ueV", ueV); ("J", J)]%string.
Proof.
  intros H. apply list_elem_of_In. unfold stringToUnit in H.
  now apply elem_of_list_to_map_2 in H.
Qed.

(** X12.  The two unit tables are inverse to each other: [getUnit]
    returns [unit] for a string exactly when [getUnitString] returns that
    string for [unit], so a unit survives the round trip through its name
    and a recognised name survives the round trip through its unit. *)
Theorem unit_names_round_trip (str : string) (unit : Unit) :
  getUnit str = Value unit <-> getUnitString unit = Value str.
Proof.
  unfold getUnit, getUnitString. split.
  - destruct (stringToUnit !! str) as [u|] eqn:Hlookup; [|discriminate].
    intros [= ->]. apply stringToUnit_entries in Hlookup. simpl in Hlookup.
    repeat (destruct Hlookup as [[= <- <-]|Hlookup]; [vm_compute; reflexivity|]).
    contradiction.
  - destruct unit; vm_compute; intros [= <-]; reflexivity.
Qed.

(** X13.  [getUnitString] returns a name for every unit, and [getUnit]
    ends with the "unknown unit" diagnostic carrying the string exactly
    when the string is none of the seven names, which are matched with
    their exact case. *)
Theorem unit_lookup_failures :
  (forall unit, exists str, getUnitString unit = Value str /\ In str unitStrings) /\
  (forall str, getUnit str = Exited (UnknownUnitString str) <-> ~ In str unitStrings).
Proof.
  split.
  - intros []; eexists; (split; [vm_compute; reflexivity|]); simpl; tauto.
  - intros str. unfold getUnit. split.
    + destruct (stringToUnit !! str) as [u|] eqn:Hlookup; [discriminate|].
      intros _ Hin. simpl in Hin.
      repeat (destruct Hin as [<-|Hin]; [vm_compute in Hlookup; discriminate|]).
      contradiction.
    + intros Hnot.
      assert (Hnone : stringToUnit !! str = None).
      { unfold stringToUnit. apply not_elem_of_list_to_map_1.
        intros Hin. apply Hnot. now apply list_elem_of_In in Hin. }
      now rewrite Hnone.
Qed.

End EnergyUnits.

(** * The event handler of the ray tracer *)

Section EventHandlerLock.

Import RayTracer.

Context {Callback : Type}.

(** X14.  The handler is a non-reentrant lock with an owner: on an
    unlocked handler [lock] succeeds and records the owner and the
    callback; until it is released every further [lock] fails and changes
    nothing, also for the owner itself; [unlock] succeeds for the recorded
    owner, clearing owner and callback, and fails for every other caller,
    changing nothing. *)
Theorem lock_excludes_until_unlocked (h : EventHandler Callback)
    (holder : option nat) (lambda : option Callback) :
  isLocked h = false ->
  lock holder lambda h
  = (true, {| isLocked := true; owner := holder; lambdaOnMouseChange := lambda |}) /\
  (forall other lambda',
     lock other lambda' (snd (lock holder lambda h))
     = (false, snd (lock holder lambda h))) /\
  unlock holder (snd (lock holder lambda h))
  = (true, {| isLocked := false; owner := None; lambdaOnMouseChange := None |}) /\
  (forall other,
     other <> holder ->
     unlock other (snd (lock holder lambda h)) = (false, snd (lock holder lambda h))).
Proof.
  intros Hfree. unfold lock. rewrite Hfree. simpl.
  split; [reflexivity|]. split; [reflexivity|].
  unfold unlock. simpl. split.
  - now destruct (decide (holder = holder)).
  - intros other Hother. destruct (decide (holder = other)); [congruence|reflexivity].
Qed.

Lemma call_released (c : Call Callback) (h : EventHandler Callback) :
  released h -> released (snd (call c h)).
Proof.
  unfold released. intros Hh. destruct c as [newOwner lambda|caller]; simpl.
  - unfold lock. destruct (isLocked h) eqn:Hlocked; simpl; [|discriminate].
    intros Hfalse. congruence.
  - unfold unlock. destruct (decide (owner h = caller)); simpl; [tauto|assumption].
Qed.

Lemma calls_released (cs : list (Call Callback)) : forall h,
  released h -> released (snd (calls cs h)).
Proof.
  induction cs as [|c cs IH]; intros h Hh; simpl; [assumption|].
  pose proof (call_released c h Hh) as Hstep.
  destruct (call c h) as [flag h']. simpl in Hstep.
  specialize (IH h' Hstep). destruct (calls cs h') as [flags h'']. exact IH.
Qed.

(** X15.  Starting from a handler that is unlocked with no owner and no
    callback, after any sequence of [lock] and [unlock] calls an unlocked
    handler again has neither: no callback outlives its lock, so a mouse
    event arriving while the handler is unlocked ends the process, and on
    an unlocked handler [unlock] reports success exactly for the null
    owner. *)
Theorem unlocked_handler_holds_nothing (cs : list (Call Callback))
    (h : EventHandler Callback) :
  released h ->
  isLocked (snd (calls cs h)) = false ->
  owner (snd (calls cs h)) = None /\
  lambdaOnMouseChange (snd (calls cs h)) = None /\
  (forall event x y flags userData,
     onMouseChange event x y flags userData (snd (calls cs h)) = ExitsNullLambda) /\
  (forall caller, fst (unlock caller (snd (calls cs h))) = true <-> caller = None).
Proof.
  intros Hh Hunlocked.
  destruct (calls_released cs h Hh Hunlocked) as [Howner Hlambda].
  split; [assumption|]. split; [assumption|]. split.
  - intros event x y flags userData. unfold onMouseChange. now rewrite Hlambda.
  - intros caller. unfold unlock. rewrite Howner.
    destruct (decide (None = caller)) as [<-|Hne]; simpl; split; congruence.
Qed.

End EventHandlerLock.

Section EventHandlerExamples.

Import RayTracer.

Lemma lock_excludes_until_unlocked_witness :
  lock (Some 1%nat) (Some tt)
    {| isLocked := false; owner := None; lambdaOnMouseChange := None |}
  = (true, {| isLocked := true; owner := Some 1%nat; lambdaOnMouseChange := Some tt |}) /\
  lock (Some 2%nat) (Some tt)
    {| isLocked := true; owner := Some 1%nat; lambdaOnMouseChange := Some tt |}
  = (false, {| isLocked := true; owner := Some 1%nat; lambdaOnMouseChange := Some tt |}).
Proof.
  destruct (lock_excludes_until_unlocked (Callback := unit)
              {| isLocked := false; owner := None; lambdaOnMouseChange := None |}
              (Some 1%nat) (Some tt) eq_refl) as (Hlock & Hagain & _).
  split; [exact Hlock|]. exact (Hagain (Some 2%nat) (Some tt)).
Defined.

Lemma unlocked_handler_holds_nothing_witness :
  onMouseChange (Callback := unit) 1 2 3 4 5
    (snd (calls [Lock (Some 1%nat) (Some tt); Lock (Some 2%nat) None;
                 Unlock (Some 2%nat); Unlock (Some 1%nat)]
            {| isLocked := false; owner := None; lambdaOnMouseChange := None |}))
  = ExitsNullLambda.
Proof.
  apply (unlocked_handler_holds_nothing (Callback := unit)
           [Lock (Some 1%nat) (Some tt); Lock (Some 2%nat) None;
            Unlock (Some 2%nat); Unlock (Some 1%nat)]
           {| isLocked := false; owner := None; lambdaOnMouseChange := None |}).
  - intros _. split; reflexivity.
  - reflexivity.
Defined.

End EventHandlerExamples.

(** * The lattice of the basic diagonalization template *)

Section Lattice.

Import BasicDiagonalization.

Lemma In_counter (n bound : Z) : In n (counter bound) <-> 0 <= n < bound.
Proof.
  unfold counter. rewrite in_map_iff. split.
  - intros (i & <- & Hi). apply in_seq in Hi. lia.
  - intros Hn. exists (Z.to_nat n). split; [lia|]. apply in_seq. lia.
Qed.

(** X17.  The model of the template is a lattice with edges: every call
    uses sites inside the [sizeX] by [sizeY] lattice with two spins, each
    site gets one on-site term [-mu], and every hopping term [-t] joins a
    site (its second Index) to the neighbour one step further in [x] or in
    [y] with the same spin (its first Index), so the [%] in that Index
    never wraps around. *)
Theorem lattice_has_edges (sizeX sizeY : Z) (c : ModelCall) :
  In c (modelCalls sizeX sizeY) ->
  match c with
  | addHA amplitude first second =>
      amplitude = cneg mu /\ first = second /\ site sizeX sizeY second
  | addHAAndHC amplitude first second =>
      amplitude = cneg t /\ site sizeX sizeY second /\ site sizeX sizeY first /\
      exists x y s,
        second = [x; y; s] /\ (first = [x + 1; y; s] \/ first = [x; y + 1; s])
  end.
Proof.
  unfold modelCalls. rewrite in_flat_map. intros (x & Hx & Hc).
  apply in_flat_map in Hc as (y & Hy & Hc). apply in_flat_map in Hc as (s & Hs & Hc).
  apply In_counter in Hx, Hy, Hs. unfold siteCalls in Hc.
  assert (Hsite : site sizeX sizeY [x; y; s]) by (exists x, y, s; auto).
  apply in_app_or in Hc as [Hc|Hc]; [|apply in_app_or in Hc as [Hc|Hc]].
  - destruct Hc as [<-|[]]. auto.
  - destruct (Z.ltb_spec (x + 1) sizeX) as [Hlt|]; [|contradiction].
    destruct Hc as [<-|[]]. rewrite Z.rem_small by lia.
    repeat split; try assumption.
    + exists (x + 1), y, s. repeat split; lia.
    + exists x, y, s. auto.
  - destruct (Z.ltb_spec (y + 1) sizeY) as [Hlt|]; [|contradiction].
    destruct Hc as [<-|[]]. rewrite Z.rem_small by lia.
    repeat split; try assumption.
    + exists x, (y + 1), s. repeat split; lia.
    + exists x, y, s. auto.
Qed.

Lemma lattice_has_edges_witness :
  cneg t = cneg t /\ site SIZE_X SIZE_Y [18; 7; 1] /\ site SIZE_X SIZE_Y [19; 7; 1] /\
  exists x y s,
    [18; 7; 1] = [x; y; s] /\ ([19; 7; 1] = [x + 1; y; s] \/ [19; 7; 1] = [x; y + 1; s]).
Proof.
  apply (lattice_has_edges SIZE_X SIZE_Y (addHAAndHC (cneg t) [19; 7; 1] [18; 7; 1])).
  unfold modelCalls. apply in_flat_map. exists 18. split; [apply In_counter; unfold SIZE_X, SIZE_Y; lia|].
  apply in_flat_map. exists 7. split; [apply In_counter; unfold SIZE_X, SIZE_Y; lia|].
  apply in_flat_map. exists 1. split; [apply In_counter; unfold SIZE_X, SIZE_Y; lia|].
  right. left. reflexivity.
Defined.

(** *** Counting the terms *)

Lemma filter_flat_map_length {A B : Type} (p : B -> bool) (g : A -> list B) (l : list A) :
  length (List.filter p (flat_map g l))
  = list_sum (map (fun a => length (List.filter p (g a))) l).
Proof.
  induction l as [|a l IH]; [reflexivity|].
  simpl. now rewrite List.filter_app, length_app, IH.
Qed.

Lemma list_sum_map_plus {A : Type} (a : nat) (f : A -> nat) (l : list A) :
  list_sum (map (fun i => (a + f i)%nat) l) = (length l * a + list_sum (map f l))%nat.
Proof. induction l as [|i l IH]; simpl; [reflexivity|]. rewrite IH. lia. Qed.

Lemma list_sum_map_scale {A : Type} (f : A -> nat) (a : nat) (l : list A) :
  list_sum (map (fun i => (f i * a)%nat) l) = (list_sum (map f l) * a)%nat.
Proof. induction l as [|i l IH]; simpl; [reflexivity|]. rewrite IH. lia. Qed.

Lemma list_sum_map_const {A : Type} (a : nat) (l : list A) :
  list_sum (map (fun _ => a) l) = (length l * a)%nat.
Proof. induction l as [|i l IH]; simpl; [reflexivity|]. rewrite IH. lia. Qed.

Lemma list_sum_map_ext {A : Type} (f g : A -> nat) (l : list A) :
  (forall a, In a l -> f a = g a) -> list_sum (map f l) = list_sum (map g l).
Proof.
  induction l as [|i l IH]; intros H; simpl; [reflexivity|].
  rewrite (H i) by now left. rewrite IH; [reflexivity|]. intros a Ha. apply H. now right.
Qed.

Lemma length_counter (n : nat) : length (counter (Z.of_nat n)) = n.
Proof. unfold counter. now rewrite length_map, length_seq, Nat2Z.id. Qed.

(** The number of counter values [i] with [i + 1 < n]. *)
Lemma inner_steps (n : nat) :
  list_sum (map (fun i => if i + 1 <? Z.of_nat n then 1%nat else 0%nat)
                (counter (Z.of_nat n)))
  = (n - 1)%nat.
Proof.
  unfold counter. rewrite Nat2Z.id, map_map.
  assert (H : forall k, (k <= n)%nat ->
            list_sum (map (fun i => if Z.of_nat i + 1 <? Z.of_nat n then 1%nat else 0%nat)
                          (seq 0 k))
            = Nat.min k (n - 1)).
  { induction k as [|k IH]; intros Hk; [reflexivity|].
    rewrite seq_S, map_app, list_sum_app, IH by lia.
    cbn [map list_sum Nat.add].
    destruct (Z.ltb_spec (Z.of_nat k + 1) (Z.of_nat n));
      cbv [list_sum fold_right]; lia. }
  rewrite H by lia. lia.
Qed.

(** X18.  On a lattice of [nx] by [ny] sites the loops add one on-site
    term for each of the [2 nx ny] states and one hopping term for each
    of the [2 ((nx - 1) ny + nx (ny - 1))] bonds between neighbours; for
    the template's 20 by 20 lattice these are 800 and 1520 calls. *)
Theorem lattice_term_counts (nx ny : nat) :
  length (List.filter isAddHA (modelCalls (Z.of_nat nx) (Z.of_nat ny)))
  = (2 * nx * ny)%nat /\
  length (List.filter isAddHAAndHC (modelCalls (Z.of_nat nx) (Z.of_nat ny)))
  = (2 * ((nx - 1) * ny + nx * (ny - 1)))%nat /\
  length (List.filter isAddHA mainModelCalls) = 800%nat /\
  length (List.filter isAddHAAndHC mainModelCalls) = 1520%nat.
Proof.
  assert (Hon : forall sx sy x y s,
            length (List.filter isAddHA (siteCalls sx sy x y s)) = 1%nat).
  { intros. unfold siteCalls. simpl.
    destruct (x + 1 <? sx), (y + 1 <? sy); reflexivity. }
  assert (Hhop : forall sx sy x y s,
            length (List.filter isAddHAAndHC (siteCalls sx sy x y s))
            = ((if (x + 1 <? sx)%Z then 1 else 0) + (if (y + 1 <? sy)%Z then 1 else 0))%nat).
  { intros. unfold siteCalls. simpl.
    destruct (x + 1 <? sx), (y + 1 <? sy); reflexivity. }
  assert (Hgeneral :
            length (List.filter isAddHA (modelCalls (Z.of_nat nx) (Z.of_nat ny)))
            = (2 * nx * ny)%nat /\
            length (List.filter isAddHAAndHC (modelCalls (Z.of_nat nx) (Z.of_nat ny)))
            = (2 * ((nx - 1) * ny + nx * (ny - 1)))%nat).
  { unfold modelCalls. split.
    - rewrite filter_flat_map_length.
      rewrite (list_sum_map_ext _ (fun _ => (2 * ny)%nat)).
      + rewrite list_sum_map_const, length_counter. lia.
      + intros x _. rewrite filter_flat_map_length.
        rewrite (list_sum_map_ext _ (fun _ => 2%nat)).
        * rewrite list_sum_map_const, length_counter. lia.
        * intros y _. rewrite filter_flat_map_length.
          rewrite (list_sum_map_ext _ (fun _ => 1%nat)) by (intros; apply Hon).
          reflexivity.
    - rewrite filter_flat_map_length.
      rewrite (list_sum_map_ext _
                 (fun x => ((ny - 1) * 2
                            + (if (x + 1 <? Z.of_nat nx)%Z then 1 else 0) * (2 * ny))%nat)).
      + rewrite list_sum_map_plus, length_counter.
        rewrite list_sum_map_scale, inner_steps. lia.
      + intros x _. rewrite filter_flat_map_length.
        rewrite (list_sum_map_ext _
                   (fun y => ((if (x + 1 <? Z.of_nat nx)%Z then 1 else 0) * 2
                              + (if (y + 1 <? Z.of_nat ny)%Z then 1 else 0) * 2)%nat)).
        * rewrite list_sum_map_plus, length_counter.
          rewrite list_sum_map_scale, inner_steps.
          destruct (x + 1 <? Z.of_nat nx); lia.
        * intros y _. rewrite filter_flat_map_length.
          rewrite (list_sum_map_ext _
                     (fun _ => ((if (x + 1 <? Z.of_nat nx)%Z then 1 else 0)
                                + (if (y + 1 <? Z.of_nat ny)%Z then 1 else 0))%nat))
            by (intros; apply Hhop).
          simpl. lia. }
  destruct Hgeneral as [Hha Hhc]. split; [exact Hha|]. split; [exact Hhc|].
  split; vm_compute; reflexivity.
Qed.

End Lattice.
